(** * A shallow embedding of the EEC289Q TSP solver (package tsp_solver)

    Source files: pkg/graph.go (Graph, NewGraph, AddEdge, NodeCount,
    EdgeCount), pkg/solve.go (SolveTSP, randomizedNearestNeighbor, twoOpt,
    reverse) and cmd/solver/main.go (loadGraph, main).

    Modelling choices:
    - node identifiers (Go int) are [Z]; edge weights (Go float64) are exact
      rationals [Q], so float rounding is not modelled;
    - [map[int]map[int]float64] is a [gmap Z (gmap Z Q)]; reading a missing
      key of a Go map gives the zero value, reading from a nil inner map
      behaves like reading from an empty one;
    - slices are lists, indexed with stdpp's [!!]; an index out of range
      (a Go panic) is a [None] result;
    - the random source, Go's randomized map iteration order and the
      context deadline are explicit inputs, threaded through the code as
      the Go code threads [rng] and [ctx];
    - the library calls of cmd/solver/main.go (reading the file, parsing
      numbers and flags) are parameters of the model. *)

From Stdlib Require Import QArith Lqa.
From stdpp Require Import base gmap list.

(* ================================================================= *)
(** ** Q helpers *)

(** Go's [a < b] on float64, as a boolean test on rationals. *)
Definition Qltb (x y : Q) : bool := negb (Qle_bool y x).

(* ================================================================= *)
(** ** pkg/graph.go *)

(** [type Graph struct { edges map[int]map[int]float64; nodes []int }] *)
Record Graph := mkGraph {
  edges : gmap Z (gmap Z Q);
  nodes : list Z
}.

(** [NewGraph(nCount)]: [nCount] is only a capacity hint. *)
Definition NewGraph (nCount : Z) : Graph := mkGraph ∅ [].

(** The block [if g.edges[x] == nil { g.edges[x] = make(...); g.nodes =
    append(g.nodes, x) }] of [AddEdge]; an inner map is never nil once
    made, so [g.edges[x] == nil] holds exactly when [x] is absent. *)
Definition register (g : Graph) (x : Z) : Graph :=
  match edges g !! x with
  | None => mkGraph (<[x := ∅]> (edges g)) (nodes g ++ [x])
  | Some _ => g
  end.

(** [g.edges[u]]: the neighbour map of [u], empty (nil) when absent. *)
Definition neighbors (g : Graph) (u : Z) : gmap Z Q := default ∅ (edges g !! u).

(** [w, ok := g.edges[u][v]] *)
Definition edge (g : Graph) (u v : Z) : option Q := neighbors g u !! v.

(** [g.edges[u][v]] read without the [ok] flag: 0 when absent. *)
Definition weight (g : Graph) (u v : Z) : Q := default 0%Q (edge g u v).

(** [func (g *Graph) AddEdge(from, to int, weight float64)] *)
Definition AddEdge (g : Graph) (from to : Z) (w : Q) : Graph :=
  let f := Z.max from to in
  let t := Z.min from to in
  let g2 := register (register g f) t in
  (* g.edges[f][t] = weight *)
  let e3 := <[f := <[t := w]> (neighbors g2 f)]> (edges g2) in
  (* g.edges[t][f] = weight (the same inner map when f = t) *)
  let e4 := <[t := <[f := w]> (default ∅ (e3 !! t))]> e3 in
  mkGraph e4 (nodes g2).

(** [func (g *Graph) NodeCount() int] *)
Definition NodeCount (g : Graph) : nat := length (nodes g).

(** A graph as the loader builds it: [NewGraph] then [AddEdge] per line. *)
Definition build (nCount : Z) (es : list (Z * Z * Q)) : Graph :=
  fold_left (fun g '(f, t, w) => AddEdge g f t w) es (NewGraph nCount).

(** Symmetry of the stored weight function. *)
Definition symmetric (g : Graph) : Prop := forall u v, edge g u v = edge g v u.

(** The bookkeeping invariant of [nodes] and [edges]. *)
Record graph_wf (g : Graph) : Prop := {
  wf_nodup : NoDup (nodes g);
  wf_nodes : forall u, u ∈ nodes g <-> is_Some (edges g !! u);
  wf_sym : symmetric g;
  wf_nbr_nodes : forall u v w, edge g u v = Some w -> v ∈ nodes g;
  wf_has_nbr : forall u, u ∈ nodes g -> exists v w, edge g u v = Some w
}.

(* ================================================================= *)
(** ** pkg/solve.go: reverse and twoOpt *)

(** [1e-9], the improvement threshold of [twoOpt]. *)
Definition eps : Q := 1 # 1000000000.

(** [path[i], path[j] = path[j], path[i]]: both right-hand sides are read
    before either slot is written. *)
Definition swap (path : list Z) (i j : nat) : list Z :=
  match path !! i, path !! j with
  | Some a, Some b => <[j := a]> (<[i := b]> path)
  | _, _ => path (* out of range: a panic in Go, never reached from reverse *)
  end.

(** [for i < j { swap; i++; j-- }]; each round brings [i] and [j] closer,
    so [j - i] rounds are always enough. *)
Fixpoint reverse_loop (fuel : nat) (path : list Z) (i j : nat) : list Z :=
  match fuel with
  | O => path
  | S fuel' =>
      if decide (i < j) then reverse_loop fuel' (swap path i j) (S i) (j - 1)
      else path
  end.

(** [func reverse(path []int, i, j int)] *)
Definition reverse (path : list Z) (i j : nat) : list Z := reverse_loop (j - i) path i j.

(** One iteration of the inner loop of [twoOpt] for the position pair
    [(i, j)]; the loop state is [(path, currentCost, improved)].  The
    indices are in range ([i < j < size = len(path)]), so the total lookup
    [!!!] never takes its default. *)
Definition twoOpt_pair (g : Graph) (size i j : nat) (st : list Z * Q * bool)
    : list Z * Q * bool :=
  let '(path, currentCost, improved) := st in
  if decide (i = 0 /\ j = size - 1) then st   (* continue *)
  else
    let u1 := path !!! i in
    let v1 := path !!! ((i + 1) mod size) in
    let u2 := path !!! j in
    let v2 := path !!! ((j + 1) mod size) in
    let w1 := weight g u1 v1 in
    let w2 := weight g u2 v2 in
    match edge g u1 u2, edge g v1 v2 with
    | Some wNew1, Some wNew2 =>
        let delta := ((wNew1 + wNew2) - (w1 + w2))%Q in
        if Qltb delta (- eps) then (reverse path (i + 1) j, (currentCost + delta)%Q, true)
        else st
    | _, _ => st
    end.

(** One sweep: [improved = false; for i := range size { for j := i + 2;
    j < size; j++ { ... } }]. *)
Definition twoOpt_sweep (g : Graph) (size : nat) (path : list Z) (currentCost : Q)
    : list Z * Q * bool :=
  fold_left
    (fun st i => fold_left (fun st j => twoOpt_pair g size i j st)
                           (seq (i + 2) (size - (i + 2))) st)
    (seq 0 size) (path, currentCost, false).

(** [for improved { select { case <-ctx.Done(): return path, currentCost;
    default: }; sweep }].  [done k] is the answer of the [k]-th poll of
    [ctx.Done()]; the result carries the index of the next poll.  [fuel]
    bounds the number of sweeps; [None] means it ran out. *)
Fixpoint twoOpt_loop (fuel : nat) (g : Graph) (size : nat) (done : nat -> bool) (t : nat)
    (path : list Z) (currentCost : Q) (improved : bool) : option (list Z * Q * nat) :=
  match fuel with
  | O => None
  | S fuel' =>
      if improved then
        if done t then Some (path, currentCost, S t)
        else
          let '(path', cost', improved') := twoOpt_sweep g size path currentCost in
          twoOpt_loop fuel' g size done (S t) path' cost' improved'
      else Some (path, currentCost, t)
  end.

(** [func twoOpt(path []int, currentCost float64, graph *Graph, ctx)] *)
Definition twoOpt (fuel : nat) (path : list Z) (currentCost : Q) (g : Graph)
    (done : nat -> bool) (t : nat) : option (list Z * Q * nat) :=
  twoOpt_loop fuel g (length path) done t path currentCost true.

(** The cost of a tour: the stored weights along consecutive positions
    plus the closing edge from the last node back to the first. *)
Fixpoint path_cost (g : Graph) (p : list Z) : Q :=
  match p with
  | u :: ((v :: _) as rest) => (weight g u v + path_cost g rest)%Q
  | _ => 0%Q
  end.

Definition tour_cost (g : Graph) (p : list Z) : Q :=
  match p with
  | [] => 0%Q
  | first :: _ => path_cost g (p ++ [first])
  end.

(** No improving 2-opt move is left (the property of a converged tour). *)
Definition no_improving_2opt (g : Graph) (path : list Z) : Prop :=
  let n := length path in
  forall i j, i + 2 <= j -> j < n -> ~ (i = 0 /\ j = n - 1) ->
    let u1 := path !!! i in
    let v1 := path !!! ((i + 1) mod n) in
    let u2 := path !!! j in
    let v2 := path !!! ((j + 1) mod n) in
    match edge g u1 u2, edge g v1 v2 with
    | Some wNew1, Some wNew2 =>
        ~ (((wNew1 + wNew2) - (weight g u1 v1 + weight g u2 v2)) < - eps)%Q
    | _, _ => True
    end.

(** The running cost moves by strictly improving deltas only. *)
Inductive cost_descent : Q -> Q -> Prop :=
| cd_refl c : cost_descent c c
| cd_move c delta c' : (delta < - eps)%Q -> cost_descent (c + delta)%Q c' -> cost_descent c c'.

(* ================================================================= *)
(** ** pkg/solve.go: randomizedNearestNeighbor *)

(** [s[i]] for a Go [int] index: [None] when out of range (a panic). *)
Definition index {A} (l : list A) (i : Z) : option A :=
  if (i <? 0)%Z then None else l !! Z.to_nat i.

(** [type candidate struct { node int; dist float64 }] *)
Definition candidate : Type := Z * Q.

Definition cand0 : candidate := (0%Z, 0%Q).

(** Find worst in topK: [maxDistIdx := 0; for i := 1; i < len(topK); i++
    { if topK[i].dist > topK[maxDistIdx].dist { maxDistIdx = i } }]. *)
Definition maxDistIdx (topK : list candidate) : nat :=
  fold_left (fun m i => if Qltb (nth m topK cand0).2 (nth i topK cand0).2 then i else m)
            (seq 1 (length topK - 1)) 0.

(** The scan [for n, w := range neighbors { ... }] that keeps the [k]
    nearest unvisited neighbours, over the entries in iteration order. *)
Fixpoint scan_topK (k : nat) (visited : gset Z) (entries : list (Z * Q))
    (topK : list candidate) : list candidate :=
  match entries with
  | [] => topK
  | (n, w) :: rest =>
      if decide (n ∈ visited) then scan_topK k visited rest topK   (* continue *)
      else if decide (length topK < k) then scan_topK k visited rest (topK ++ [(n, w)])
      else
        let m := maxDistIdx topK in
        if Qltb w (nth m topK cand0).2
        then scan_topK k visited rest (<[m := (n, w)]> topK)
        else scan_topK k visited rest topK
  end.

Section Construction.

(** The random source [*rand.Rand]: [Intn r n] is [(r.Intn(n), r')] where
    [r'] is the source after the draw. *)
Context {Rand : Type} (Intn : Rand -> Z -> Z * Rand).

(** Go randomizes the order of a [range] over a map: [Iter] is the hidden
    state of that randomization and [range_map it m] lists the entries of
    [m] in the order the loop visits them. *)
Context {Iter : Type} (range_map : Iter -> gmap Z Q -> list (Z * Q) * Iter).

(** The body of [for len(path) < numNodes { ... }]; [iters] is the number
    of rounds left: each round appends one node, so the loop makes
    [numNodes - 1] rounds from the one-node path. *)
Fixpoint rnn_loop (iters : nat) (g : Graph) (current : Z) (path : list Z)
    (visited : gset Z) (totalCost : Q) (rng : Rand) (it : Iter)
    : option (list Z * Q) * Rand * Iter :=
  match iters with
  | O => (Some (path, totalCost), rng, it)
  | S iters' =>
      let '(entries, it') := range_map it (neighbors g current) in
      let topK := scan_topK 3 visited entries [] in
      match topK with
      | [] => (None, rng, it')                              (* dead end *)
      | _ =>
          let '(idx, rng') := Intn rng (Z.of_nat (length topK)) in
          match index topK idx with
          | None => (None, rng', it')  (* Intn(n) is in [0, n): never reached *)
          | Some (n, d) =>
              rnn_loop iters' g n (path ++ [n]) ({[n]} ∪ visited) (totalCost + d)%Q rng' it'
          end
      end
  end.

(** [func randomizedNearestNeighbor(startNode, numNodes int, graph *Graph,
    rng *rand.Rand) ([]int, float64, bool)]; [None] is the [false] result. *)
Definition randomizedNearestNeighbor (startNode : Z) (numNodes : nat) (g : Graph)
    (rng : Rand) (it : Iter) : option (list Z * Q) * Rand * Iter :=
  let '(res, rng', it') :=
    rnn_loop (numNodes - 1) g startNode [startNode] {[startNode]} 0%Q rng it in
  match res with
  | None => (None, rng', it')
  | Some (path, totalCost) =>
      match head path, last path with
      | Some first, Some lst =>
          match edge g lst first with
          | Some w => (Some (path, (totalCost + w)%Q), rng', it')
          | None => (None, rng', it')                 (* cannot close loop *)
          end
      | _, _ => (None, rng', it')
      end
  end.

End Construction.

(* ================================================================= *)
(** ** pkg/solve.go: SolveTSP *)

(** [math.MaxFloat64], the initial [bestCost]. *)
Definition MaxFloat64 : Q := inject_Z ((2 ^ 53 - 1) * 2 ^ 971).

(** The critical section of a worker, between [mu.Lock()] and
    [mu.Unlock()]: [totalCycles++; if cost < bestCost { bestCost = cost;
    bestPath = copy of path }].  A nil [bestPath] is [None]. *)
Definition record (st : option (list Z) * Q * nat) (a : list Z * Q)
    : option (list Z) * Q * nat :=
  let '(bestPath, bestCost, totalCycles) := st in
  let '(path, cost) := a in
  if Qltb cost bestCost then (Some path, cost, S totalCycles)
  else (bestPath, bestCost, S totalCycles).

(** The order in which the attempts of the workers enter the critical
    section.  [sched] names, one step at a time, the worker whose next
    attempt goes next; the attempts it leaves out follow in worker order,
    since [wg.Wait()] returns only after every worker has finished. *)
Fixpoint interleave {A} (sched : list nat) (qs : list (list A)) : list A :=
  match sched with
  | [] => concat qs
  | w :: sched' =>
      match qs !! w with
      | Some (a :: q) => a :: interleave sched' (<[w := q]> qs)
      | _ => interleave sched' qs
      end
  end.

Section Orchestrator.

Context {Rand : Type} (Intn : Rand -> Z -> Z * Rand).
Context {Iter : Type} (range_map : Iter -> gmap Z Q -> list (Z * Q) * Iter).

(** The [worker] closure: [for { select { case <-ctx.Done(): return;
    default: ... } }].  [done k] is what the [k]-th poll of [ctx.Done()]
    by this worker answers (at the top of the loop and at every sweep of
    [twoOpt]).  The result lists the attempts the worker completed, in the
    order it took them to the critical section.  [fuel] bounds the rounds
    of the loop and the sweeps of each [twoOpt]; [None] means it ran out. *)
Fixpoint worker (fuel : nat) (g : Graph) (nodeCount : nat) (done : nat -> bool) (t : nat)
    (rng : Rand) (it : Iter) : option (list (list Z * Q)) :=
  match fuel with
  | O => None
  | S fuel' =>
      if done t then Some []
      else
        let '(idx, rng1) := Intn rng (Z.of_nat nodeCount) in
        match index (nodes g) idx with
        | None => None             (* Intn(n) is in [0, n): never reached *)
        | Some startNode =>
            let '(res, rng2, it2) :=
              randomizedNearestNeighbor Intn range_map startNode nodeCount g rng1 it in
            match res with
            | None => worker fuel' g nodeCount done (S t) rng2 it2   (* retry *)
            | Some (path, cost) =>
                match twoOpt fuel' path cost g done (S t) with
                | None => None
                | Some (path', cost', t') =>
                    match worker fuel' g nodeCount done t' rng2 it2 with
                    | None => None
                    | Some rest => Some ((path', cost') :: rest)
                    end
                end
            end
        end
  end.

(** [func SolveTSP(graph *Graph, maxCPU, maxSeconds int) ([]int, float64,
    int)].  [numCPU] is [runtime.NumCPU()]; worker [i] runs with [env i]:
    its random source (seeded with [time.Now().UnixNano() + i]), the state
    of its map iterations and its view of the deadline of [maxSeconds]
    seconds.  [sched] orders the critical sections (see [interleave]). *)
Definition SolveTSP (fuel : nat) (g : Graph) (maxCPU maxSeconds : Z) (numCPU : Z)
    (env : nat -> (nat -> bool) * Rand * Iter) (sched : list nat)
    : option (list Z * Q * nat) :=
  let nodeCount := NodeCount g in
  if decide (nodeCount = 0) then Some ([], 0%Q, 0)
  else if decide (nodeCount = 1) then Some (nodes g, 0%Q, 1)
  else
    let numWorkers := Z.min numCPU maxCPU in
    let run i := let '(done, rng, it) := env i in worker fuel g nodeCount done 0 rng it in
    (* for i := range numWorkers { go worker(...) }; wg.Wait() *)
    match mapM run (seq 0 (Z.to_nat numWorkers)) with
    | None => None
    | Some qs =>
        let '(bestPath, bestCost, totalCycles) :=
          fold_left record (interleave sched qs) (None, MaxFloat64, 0) in
        match bestPath with
        | None => Some ([], 0%Q, totalCycles)       (* no path found *)
        | Some p => Some (p, bestCost, totalCycles)
        end
    end.

End Orchestrator.

(* ================================================================= *)
(** ** Concrete inputs *)

(** A stand-in random source for concrete runs: a linear congruential
    generator; [Intn] draws from the high bits of the state. *)
Definition lcg_Intn (r : Z) (n : Z) : Z * Z :=
  (Z.modulo (Z.div r 65536) n, Z.modulo (r * 1103515245 + 12345) (2 ^ 31)).

(** A random source whose [Intn] always draws 0. *)
Definition zero_Intn (r : unit) (n : Z) : Z * unit := (0%Z, tt).

(** [rotate k l] starts [l] at position [k mod length l] and wraps around. *)
Definition rotate {A} (k : nat) (l : list A) : list A :=
  drop (k mod length l) l ++ take (k mod length l) l.

(** Map iteration starting at offset [k] and wrapping around, as Go's
    runtime does for a map that fits one bucket (at most eight entries)
    with a randomly drawn start offset; the listing of [m] plays the role
    of the order in which the entries were inserted. *)
Definition range_rot (k : nat) (m : gmap Z Q) : list (Z * Q) * nat :=
  (rotate k (map_to_list m), k).

(** Map iteration in the order of the listing of [m], every time. *)
Definition range_fixed (i : unit) (m : gmap Z Q) : list (Z * Q) * unit :=
  (map_to_list m, tt).

(** The deadline of a run: polls from the [n]-th on report it passed. *)
Definition stop_after (n : nat) (t : nat) : bool := n <=? t.

(** The 5-cycle 1-2-3-4-5 with unit weights and chords 1-3 and 2-4 of
    weight 2.  The edges are added in an order under which each node's
    neighbour map was filled in an order of which its listing is a
    rotation, so that every [range_rot] order is one Go can produce. *)
Definition pentagon : Graph :=
  build 5 [((1, 2)%Z, 1%Q); ((2, 3)%Z, 1%Q); ((1, 5)%Z, 1%Q); ((1, 3)%Z, 2%Q);
           ((2, 4)%Z, 2%Q); ((4, 5)%Z, 1%Q); ((3, 4)%Z, 1%Q)].

(** Two disjoint edges 1-2 and 3-4: no tour exists. *)
Definition two_edges : Graph := build 4 [((1, 2)%Z, 1%Q); ((3, 4)%Z, 1%Q)].

(** One node with a self-loop of weight 5, from [AddEdge(7, 7, 5)]. *)
Definition loop7 : Graph := build 0 [((7, 7)%Z, 5%Q)].

(** The square 1-2-3-4 with unit sides and diagonals of weight 2. *)
Definition square : Graph :=
  build 4 [((1, 2)%Z, 1%Q); ((2, 3)%Z, 1%Q); ((3, 4)%Z, 1%Q); ((4, 1)%Z, 1%Q);
           ((1, 3)%Z, 2%Q); ((2, 4)%Z, 2%Q)].

(* ================================================================= *)
(** ** pkg/graph.go: EdgeCount *)

(** [func (g *Graph) EdgeCount() int]: [for _, edges := range g.edges {
    count += len(edges) }]; the order of the range does not matter to a
    sum, so the fold of stdpp stands for it. *)
Definition EdgeCount (g : Graph) : nat :=
  map_fold (fun _ (nbrs : gmap Z Q) count => count + size nbrs) 0 (edges g).

(* ================================================================= *)
(** ** The edges a tour uses *)

(** Every consecutive pair of [p] is joined by a stored edge: the test
    [_, ok := g.edges[u][v]] that [twoOpt] makes before a move and
    [randomizedNearestNeighbor] before closing the loop. *)
Fixpoint path_edges (g : Graph) (p : list Z) : bool :=
  match p with
  | u :: ((v :: _) as rest) =>
      match edge g u v with
      | Some _ => path_edges g rest
      | None => false
      end
  | _ => true
  end.

(** ... and so is the closing pair from the last node back to the first. *)
Definition tour_edges (g : Graph) (p : list Z) : bool :=
  match p with
  | [] => true
  | first :: _ => path_edges g (p ++ [first])
  end.

(* ================================================================= *)
(** ** cmd/solver/main.go: loadGraph *)

(** Bytes compare with Go's [==]. *)
#[global] Instance byte_eq_dec : EqDecision Byte.byte := Byte.byte_eq_dec.

(** ['\n'] *)
Definition newline : Byte.byte := Byte.x0a.

(** [b[lo:hi]] *)
Definition slice {A} (b : list A) (lo hi : nat) : list A := take (hi - lo) (drop lo b).

(** One round of [for i := range b { if b[i] == '\n' { lines =
    append(lines, string(b[start:i])); start = i + 1 } }]; the state is
    [(lines, start)] and a Go [string] is the list of its bytes. *)
Definition split_step (b : list Byte.byte) (st : list (list Byte.byte) * nat) (i : nat)
    : list (list Byte.byte) * nat :=
  let '(lines, start) := st in
  if decide (b !! i = Some newline) then (lines ++ [slice b start i], S i) else (lines, start).

(** The line splitting of [loadGraph]: the loop above, then [lines =
    append(lines, string(b[start:]))]. *)
Definition split_lines (b : list Byte.byte) : list (list Byte.byte) :=
  let '(lines, start) := fold_left (split_step b) (seq 0 (length b)) ([], 0) in
  lines ++ [drop start b].

(** [maxAlloc] of the Go runtime on 64-bit Linux, [1 << 48] bytes:
    [make([]int, 0, nCount)] in [NewGraph] panics ("makeslice: cap out of
    range") when [nCount < 0] or [8 * nCount > maxAlloc], whatever memory
    the machine has. *)
Definition maxAlloc : Z := 2 ^ 48.

Section Loader.

(** [os.ReadFile(inputFile)]: the bytes of the file, [None] on error. *)
Context {File : Type} (ReadFile : File -> option (list Byte.byte)).
(** [strconv.ParseInt(s, 10, 64)]: [None] on error. *)
Context (ParseInt : list Byte.byte -> option Z).
(** [fmt.Sscanf(line, "%d %d %f", &to, &from, &weight)]: the number [n] of
    items scanned and the values of [to], [from] and [weight] after the
    call, as [(n, to, from, weight)]. *)
Context (Sscanf : list Byte.byte -> nat * Z * Z * Q).
(** Whether the machine provides the memory [NewGraph(nCount)] asks for
    (a capacity hint of [nCount] entries for the map and [8 * nCount]
    bytes for the slice), when the runtime's own check lets it ask; when
    it does not, the program dies out of memory. *)
Context (allocates : Z -> bool).

(** The body of [for i, line := range lines { ... }]. *)
Definition load_step (g : Graph) (il : nat * list Byte.byte) : Graph :=
  let '(i, line) := il in
  if decide (i < 2) then g                 (* skip the first two lines *)
  else if decide (line = []) then g        (* skip empty lines *)
  else
    let '(n, to, from, weight) := Sscanf line in
    if decide (n = 3) then AddEdge g from to weight else g.

(** [func loadGraph(inputFile string) ( *Graph, error)]; [None] stands
    for an error return, the [log.Fatal] exit, a panic and running out of
    memory.  The warning
    on a node count mismatch has no effect on the result. *)
Definition loadGraph (inputFile : File) : option Graph :=
  match ReadFile inputFile with
  | None => None
  | Some b =>
      let lines := split_lines b in
      match lines !! 0 with
      | None => None                       (* lines[0] out of range: a panic *)
      | Some line0 =>
          match ParseInt line0 with
          | None => None                   (* log.Fatal *)
          | Some nodeCountClaim =>
              if decide (nodeCountClaim < 0 \/ maxAlloc < 8 * nodeCountClaim)%Z
              then None                    (* NewGraph panics *)
              else if negb (allocates nodeCountClaim)
              then None                    (* NewGraph runs out of memory *)
              else Some (fold_left load_step (zip (seq 0 (length lines)) lines)
                                   (NewGraph nodeCountClaim))
          end
      end
  end.

(** The edge a data line stands for, [(from, to, weight)], if it is
    non-empty and scans as three items. *)
Definition line_edge (line : list Byte.byte) : option (Z * Z * Q) :=
  if decide (line = []) then None
  else
    let '(n, to, from, weight) := Sscanf line in
    if decide (n = 3) then Some (from, to, weight) else None.

End Loader.

(** The inverse of [split_lines]: the lines joined with ['\n']. *)
Definition join_lines (ls : list (list Byte.byte)) : list Byte.byte :=
  match ls with
  | [] => []
  | l :: rest => l ++ concat (map (fun r => newline :: r) rest)
  end.

(* ================================================================= *)
(** ** cmd/solver/main.go: main *)

(** How [main] ends: the usage message, an exit through [flag.Parse],
    [log.Fatal] or a panic, or the call [SolveTSP(graph, *cpuFlag,
    *timeFlag)] with these arguments. *)
Inductive outcome : Type :=
| Usage
| Exit
| Solve (g : Graph) (maxCPU maxSeconds : Z).

Section Main.

Context {File : Type} (ReadFile : File -> option (list Byte.byte)).
Context (ParseInt : list Byte.byte -> option Z).
Context (Sscanf : list Byte.byte -> nat * Z * Z * Q).
Context (allocates : Z -> bool).
(** [flag.Parse()] over [os.Args[1:]]: the values of [-cpu] (default -1)
    and [-time] (default 59) and [flag.Args()]; [None] when it exits on a
    malformed flag. *)
Context (flagParse : list File -> option (Z * Z * list File)).
(** [runtime.NumCPU()] *)
Context (NumCPU : Z).

(** [func main()] with [os.Args]; the logging setup and the timing are
    left out. *)
Definition main (osArgs : list File) : outcome :=
  if decide (length osArgs < 2) then Usage
  else
    match flagParse (drop 1 osArgs) with
    | None => Exit
    | Some (cpuFlag, timeFlag, args) =>
        let cpuFlag := if decide (cpuFlag <= 0)%Z then NumCPU else cpuFlag in
        match args !! 0 with
        | None => Exit                     (* flag.Args()[0] out of range: a panic *)
        | Some inputFile =>
            match loadGraph ReadFile ParseInt Sscanf allocates inputFile with
            | None => Exit
            | Some graph => Solve graph cpuFlag timeFlag
            end
        end
    end.

End Main.

(** Concrete library calls for the witnesses: every file holds the bytes
    "2\n\n1 2 3", [ParseInt] reads 2, [Sscanf] reads to 1, from 2 and
    weight 3, and the flags are [-cpu -1 -time 59] with the given
    arguments. *)
Definition demo_file : list Byte.byte :=
  [Byte.x32; Byte.x0a; Byte.x0a; Byte.x31; Byte.x20; Byte.x32; Byte.x20; Byte.x33].

(* ================================================================= *)
(** * Proofs *)

(* ----------------------------------------------------------------- *)
(** *** Facts on Qltb *)

Lemma Qltb_spec x y : Qltb x y = true <-> (x < y)%Q.
Proof.
  unfold Qltb. rewrite negb_true_iff. split.
  - intros H. apply Qnot_le_lt. intros Hle. apply Qle_bool_iff in Hle. congruence.
  - intros H. destruct (Qle_bool y x) eqn:E; [|reflexivity].
    apply Qle_bool_iff in E. exfalso. apply (Qlt_not_le x y); assumption.
Qed.

Lemma Qltb_false x y : Qltb x y = false <-> (y <= x)%Q.
Proof.
  unfold Qltb. rewrite negb_false_iff. apply Qle_bool_iff.
Qed.

(* ----------------------------------------------------------------- *)
(** *** Lemmas on AddEdge *)

Lemma neighbors_register g x u : neighbors (register g x) u = neighbors g u.
Proof.
  unfold neighbors, register. destruct (edges g !! x) eqn:E; [done|]. simpl.
  destruct (decide (x = u)) as [->|Hne].
  - by rewrite lookup_insert_eq, E.
  - by rewrite lookup_insert_ne.
Qed.

Lemma edge_register g x u v : edge (register g x) u v = edge g u v.
Proof. unfold edge. by rewrite neighbors_register. Qed.

Lemma neighbors_AddEdge g a b w u :
  neighbors (AddEdge g a b w) u =
  if decide (u = Z.min a b) then
    <[Z.max a b := w]> (if decide (u = Z.max a b) then <[Z.min a b := w]> (neighbors g u)
                        else neighbors g u)
  else if decide (u = Z.max a b) then <[Z.min a b := w]> (neighbors g u)
  else neighbors g u.
Proof.
  unfold AddEdge. set (f := Z.max a b). set (t := Z.min a b).
  set (g2 := register (register g f) t).
  assert (Hg2 : forall x, neighbors g2 x = neighbors g x).
  { intros x. unfold g2. by rewrite !neighbors_register. }
  unfold neighbors at 1. simpl.
  destruct (decide (u = t)) as [->|Hut].
  - rewrite lookup_insert_eq. simpl. f_equal.
    destruct (decide (t = f)) as [Htf|Htf].
    + rewrite Htf, lookup_insert_eq. simpl. by rewrite Hg2.
    + rewrite lookup_insert_ne by congruence. fold (neighbors g2 t). by rewrite Hg2.
  - rewrite lookup_insert_ne by congruence.
    destruct (decide (u = f)) as [->|Huf].
    + rewrite lookup_insert_eq. simpl. by rewrite Hg2.
    + rewrite lookup_insert_ne by congruence. fold (neighbors g2 u). by rewrite Hg2.
Qed.

Lemma edge_AddEdge g a b w u v :
  edge (AddEdge g a b w) u v =
  if decide ((u = a /\ v = b) \/ (u = b /\ v = a)) then Some w else edge g u v.
Proof.
  unfold edge. rewrite neighbors_AddEdge.
  destruct (Z.max_spec a b) as [[Hab Hm]|[Hab Hm]];
  destruct (Z.min_spec a b) as [[Hab' Hn]|[Hab' Hn]]; rewrite Hm, Hn in *; try lia;
  repeat case_decide;
  repeat match goal with H : _ \/ _ |- _ => destruct H as [[? ?]|[? ?]] end;
  subst; try lia;
  repeat first [rewrite lookup_insert_eq | rewrite lookup_insert_ne by lia]; try done;
  exfalso; naive_solver lia.
Qed.

Lemma nodes_AddEdge g a b w :
  nodes (AddEdge g a b w) = nodes (register (register g (Z.max a b)) (Z.min a b)).
Proof. reflexivity. Qed.

Lemma edges_register_Some g x u :
  is_Some (edges (register g x) !! u) <-> is_Some (edges g !! u) \/ u = x.
Proof.
  unfold register. destruct (edges g !! x) eqn:E; simpl.
  - split; [tauto|]. intros [?| ->]; [done|]. by rewrite E.
  - rewrite lookup_insert_is_Some'. naive_solver.
Qed.

Lemma edges_AddEdge_Some g a b w u :
  is_Some (edges (AddEdge g a b w) !! u) <->
  is_Some (edges g !! u) \/ u = a \/ u = b.
Proof.
  unfold AddEdge. simpl. rewrite !lookup_insert_is_Some', !edges_register_Some.
  destruct (Z.max_spec a b) as [[? Hm]|[? Hm]];
  destruct (Z.min_spec a b) as [[? Hn]|[? Hn]]; rewrite Hm, Hn in *;
  try (assert (a = b) by lia; subst);
  split; intros; repeat match goal with H : _ \/ _ |- _ => destruct H end;
  subst; intuition auto.
Qed.

Lemma nodes_register g x :
  nodes (register g x) = match edges g !! x with None => nodes g ++ [x] | Some _ => nodes g end.
Proof. unfold register. by destruct (edges g !! x). Qed.

Lemma register_wf_nodes g x :
  NoDup (nodes g) -> (forall u, u ∈ nodes g <-> is_Some (edges g !! u)) ->
  NoDup (nodes (register g x)) /\
  (forall u, u ∈ nodes (register g x) <-> is_Some (edges (register g x) !! u)).
Proof.
  intros Hnd Hn. rewrite nodes_register. split.
  - destruct (edges g !! x) eqn:E; [done|].
    apply NoDup_app. split; [done|]. split; [|apply NoDup_singleton].
    intros y Hy Hy'. apply list_elem_of_singleton in Hy'. subst.
    apply Hn in Hy. rewrite E in Hy. by destruct Hy.
  - intros u. rewrite edges_register_Some, <- Hn.
    destruct (edges g !! x) eqn:E.
    + split; [tauto|]. intros [?| ->]; [done|]. apply Hn. by rewrite E.
    + rewrite elem_of_app, list_elem_of_singleton. tauto.
Qed.

Lemma elem_of_nodes_AddEdge g a b w u :
  graph_wf g ->
  u ∈ nodes (AddEdge g a b w) <-> u ∈ nodes g \/ u = a \/ u = b.
Proof.
  intros Hwf. rewrite nodes_AddEdge.
  destruct (register_wf_nodes g (Z.max a b)) as [Hnd1 Hn1]; [apply Hwf..|].
  destruct (register_wf_nodes _ (Z.min a b) Hnd1 Hn1) as [_ Hn2].
  rewrite Hn2, !edges_register_Some, <- (wf_nodes _ Hwf).
  destruct (Z.max_spec a b) as [[? Hm]|[? Hm]];
  destruct (Z.min_spec a b) as [[? Hn]|[? Hn]]; rewrite Hm, Hn in *;
  try (assert (a = b) by lia; subst);
  split; intros; repeat match goal with H : _ \/ _ |- _ => destruct H end;
  subst; intuition auto.
Qed.

Lemma NewGraph_wf n : graph_wf (NewGraph n).
Proof.
  constructor; simpl.
  - constructor.
  - intros u. rewrite lookup_empty. split; [intros Hu; inversion Hu|intros [? Hx]; done].
  - intros u v. reflexivity.
  - intros u v w. unfold edge, neighbors. simpl. by rewrite lookup_empty.
  - intros u Hu. inversion Hu.
Qed.

Lemma AddEdge_wf g a b w : graph_wf g -> graph_wf (AddEdge g a b w).
Proof.
  intros Hwf. constructor.
  - rewrite nodes_AddEdge.
    destruct (register_wf_nodes g (Z.max a b)) as [Hnd1 Hn1]; [apply Hwf..|].
    by destruct (register_wf_nodes _ (Z.min a b) Hnd1 Hn1).
  - intros u. rewrite elem_of_nodes_AddEdge, edges_AddEdge_Some, (wf_nodes _ Hwf) by done.
    tauto.
  - intros u v. rewrite !edge_AddEdge, (wf_sym _ Hwf u v).
    repeat case_decide; naive_solver.
  - intros u v w'. rewrite edge_AddEdge, elem_of_nodes_AddEdge by done.
    case_decide as Hc.
    + intros _. destruct Hc as [[_ ->]|[_ ->]]; tauto.
    + intros He. left. by eapply (wf_nbr_nodes _ Hwf).
  - intros u. rewrite elem_of_nodes_AddEdge by done. intros Hu.
    destruct (decide (u = a)) as [->|Hua].
    { exists b, w. rewrite edge_AddEdge. case_decide; naive_solver. }
    destruct (decide (u = b)) as [->|Hub].
    { exists a, w. rewrite edge_AddEdge. case_decide; naive_solver. }
    destruct Hu as [Hu|[?|?]]; [|done..].
    destruct (wf_has_nbr _ Hwf u Hu) as (v & w' & Hv).
    exists v, w'. rewrite edge_AddEdge. case_decide; naive_solver.
Qed.

Lemma build_wf n es : graph_wf (build n es).
Proof.
  unfold build. generalize (NewGraph_wf n). generalize (NewGraph n).
  induction es as [|[[f t] w] es IH]; intros g Hg; simpl; [done|].
  apply IH. by apply AddEdge_wf.
Qed.

(* ----------------------------------------------------------------- *)
(** *** reverse reverses the segment *)

Lemma insert_middle (A C : list Z) (x z : Z) n :
  n = length A -> <[n := z]> (A ++ x :: C) = A ++ z :: C.
Proof.
  intros ->. induction A as [|a A IH]; [reflexivity|]. simpl. by rewrite IH.
Qed.

Lemma swap_middle A x M y B :
  swap (A ++ x :: M ++ y :: B) (length A) (length A + S (length M)) = A ++ y :: M ++ x :: B.
Proof.
  unfold swap.
  rewrite list_lookup_middle by done.
  replace (A ++ x :: M ++ y :: B) with ((A ++ x :: M) ++ y :: B)
    by (rewrite <- app_assoc; reflexivity).
  rewrite list_lookup_middle by (rewrite length_app; simpl; lia).
  rewrite <- app_assoc. simpl. rewrite insert_middle by done.
  replace (A ++ y :: M ++ y :: B) with ((A ++ y :: M) ++ y :: B)
    by (rewrite <- app_assoc; reflexivity).
  rewrite insert_middle by (rewrite length_app; simpl; lia).
  rewrite <- app_assoc. reflexivity.
Qed.

Lemma reverse_loop_app fuel A M B :
  length M <= S fuel ->
  reverse_loop fuel (A ++ M ++ B) (length A) (length A + length M - 1) = A ++ rev M ++ B.
Proof.
  revert A M B. induction fuel as [|fuel IH]; intros A M B HM.
  - simpl. destruct M as [|x [|y M]]; simpl in *; try reflexivity; lia.
  - simpl. destruct M as [|x M].
    + simpl. case_decide; [lia|reflexivity].
    + destruct M as [|z M'].
      * simpl. case_decide; [lia|reflexivity].
      * destruct (exists_last (l := z :: M') ltac:(discriminate)) as [M [y HM']].
        rewrite HM' in *. simpl in HM. rewrite length_app in HM. simpl in HM.
        case_decide as Hlt; [|simpl in Hlt; rewrite length_app in Hlt; simpl in Hlt; lia].
        replace (length A + length (x :: M ++ [y]) - 1) with (length A + S (length M))
          by (simpl; rewrite length_app; simpl; lia).
        replace (A ++ (x :: M ++ [y]) ++ B) with (A ++ x :: M ++ y :: B)
          by (simpl; rewrite <- app_assoc; reflexivity).
        rewrite swap_middle.
        replace (A ++ y :: M ++ x :: B) with ((A ++ [y]) ++ M ++ (x :: B))
          by (rewrite <- app_assoc; reflexivity).
        replace (S (length A)) with (length (A ++ [y])) by (rewrite length_app; simpl; lia).
        replace (length A + S (length M) - 1) with (length (A ++ [y]) + length M - 1)
          by (rewrite length_app; simpl; lia).
        rewrite IH by lia.
        simpl. rewrite rev_app_distr. simpl. rewrite <- !app_assoc. reflexivity.
Qed.

Lemma reverse_app A M B :
  reverse (A ++ M ++ B) (length A) (length A + length M - 1) = A ++ rev M ++ B.
Proof. unfold reverse. apply reverse_loop_app. lia. Qed.

Ltac app_assoc_eq :=
  simpl; rewrite <- ?app_assoc; simpl; rewrite <- ?app_assoc; simpl;
  rewrite <- ?app_assoc; reflexivity.

Lemma reverse_2opt A u1 v1 M u2 B :
  reverse (A ++ u1 :: v1 :: M ++ u2 :: B) (length A + 1) (length A + 2 + length M)
  = A ++ u1 :: u2 :: rev M ++ v1 :: B.
Proof.
  replace (A ++ u1 :: v1 :: M ++ u2 :: B) with ((A ++ [u1]) ++ (v1 :: M ++ [u2]) ++ B)
    by app_assoc_eq.
  replace (length A + 1) with (length (A ++ [u1])) by (rewrite length_app; simpl; lia).
  replace (length A + 2 + length M) with
    (length (A ++ [u1]) + length (v1 :: M ++ [u2]) - 1)
    by (rewrite !length_app; simpl; rewrite length_app; simpl; lia).
  rewrite reverse_app. simpl. rewrite rev_app_distr. app_assoc_eq.
Qed.

Lemma split_pair (p : list Z) i j :
  i + 2 <= j -> j < length p ->
  exists A u1 v1 M u2 B,
    p = A ++ u1 :: v1 :: M ++ u2 :: B /\ length A = i /\ j = i + 2 + length M.
Proof.
  intros Hij Hj.
  pose proof (take_drop i p) as Hp.
  assert (HA : length (take i p) = i) by (rewrite length_take; lia).
  assert (Hd : length (drop i p) = length p - i) by apply length_drop.
  destruct (drop i p) as [|u1 [|v1 R]] eqn:ED; simpl in Hd; try lia.
  pose proof (take_drop (j - i - 2) R) as HR.
  assert (HM : length (take (j - i - 2) R) = j - i - 2) by (rewrite length_take; lia).
  assert (Hd' : length (drop (j - i - 2) R) = length R - (j - i - 2)) by apply length_drop.
  destruct (drop (j - i - 2) R) as [|u2 B] eqn:ED'; simpl in Hd'; [lia|].
  exists (take i p), u1, v1, (take (j - i - 2) R), u2, B.
  split; [|split; lia].
  rewrite <- Hp at 1. f_equal. do 2 f_equal. done.
Qed.

Lemma lookup_2opt_u1 (A : list Z) u1 v1 M u2 B : (A ++ u1 :: v1 :: M ++ u2 :: B) !!! length A = u1.
Proof. by apply list_lookup_total_middle. Qed.

Lemma lookup_2opt_v1 (A : list Z) u1 v1 M u2 B :
  (A ++ u1 :: v1 :: M ++ u2 :: B) !!! (length A + 1) = v1.
Proof.
  replace (A ++ u1 :: v1 :: M ++ u2 :: B) with ((A ++ [u1]) ++ v1 :: M ++ u2 :: B)
    by (rewrite <- app_assoc; reflexivity).
  apply list_lookup_total_middle. rewrite length_app. simpl. lia.
Qed.

Lemma lookup_2opt_u2 (A : list Z) u1 v1 M u2 B :
  (A ++ u1 :: v1 :: M ++ u2 :: B) !!! (length A + 2 + length M) = u2.
Proof.
  replace (A ++ u1 :: v1 :: M ++ u2 :: B) with ((A ++ u1 :: v1 :: M) ++ u2 :: B)
    by (rewrite <- app_assoc; reflexivity).
  apply list_lookup_total_middle. rewrite length_app. simpl. lia.
Qed.

Lemma length_2opt (A : list Z) u1 v1 M u2 B :
  length (A ++ u1 :: v1 :: M ++ u2 :: B) = length A + 3 + length M + length B.
Proof. rewrite length_app. simpl. rewrite length_app. simpl. lia. Qed.

(* ----------------------------------------------------------------- *)
(** *** The shape of one step, one sweep and the loop *)

Lemma twoOpt_pair_cases g size i j path c b :
  twoOpt_pair g size i j (path, c, b) = (path, c, b) \/
  exists delta, (delta < - eps)%Q /\
    twoOpt_pair g size i j (path, c, b) = (reverse path (i + 1) j, (c + delta)%Q, true).
Proof.
  unfold twoOpt_pair. case_decide; [by left|].
  destruct (edge g _ _) as [wn1|]; [|by left].
  destruct (edge g _ _) as [wn2|]; [|by left].
  destruct (Qltb _ _) eqn:E; [|by left].
  right. eexists. split; [apply Qltb_spec, E|reflexivity].
Qed.

Lemma twoOpt_pair_improved g size i j path c :
  (twoOpt_pair g size i j (path, c, true)).2 = true.
Proof.
  destruct (twoOpt_pair_cases g size i j path c true) as [->|[d [_ ->]]]; reflexivity.
Qed.

(** A fold of steps that never reset [improved] and leave the state alone
    when they do not set it. *)
Lemma fold_unchanged {X : Type} (f : list Z * Q * bool -> X -> list Z * Q * bool)
    (l : list X) p c :
  (forall st x, st.2 = true -> (f st x).2 = true) ->
  (forall p c x, (f (p, c, false) x).2 = false -> f (p, c, false) x = (p, c, false)) ->
  (fold_left f l (p, c, false)).2 = false ->
  fold_left f l (p, c, false) = (p, c, false) /\
  forall x, x ∈ l -> f (p, c, false) x = (p, c, false).
Proof.
  intros Hmono Hstay. induction l as [|x l IH]; simpl; intros Hfin.
  - split; [done|]. intros x Hx. inversion Hx.
  - destruct (f (p, c, false) x) as [[p' c'] b'] eqn:E.
    destruct b'.
    + exfalso. clear IH. revert Hfin.
      assert (Hgen : forall st, st.2 = true -> (fold_left f l st).2 = true).
      { induction l as [|y l IHl]; simpl; [done|]. intros st Hst. apply IHl. by apply Hmono. }
      rewrite Hgen; [discriminate|done].
    + assert (Hx : f (p, c, false) x = (p, c, false)) by (apply Hstay; by rewrite E).
      rewrite Hx in E. injection E as <- <-.
      destruct (IH Hfin) as [IH1 IH2]. split; [done|].
      intros y Hy. apply elem_of_cons in Hy as [->|Hy]; [done|]. by apply IH2.
Qed.

Lemma fold_left_invariant {S X : Type} (R : S -> Prop) (f : S -> X -> S) (l : list X) st :
  (forall st x, x ∈ l -> R st -> R (f st x)) -> R st -> R (fold_left f l st).
Proof.
  revert st. induction l as [|x l IH]; intros st Hf Hst; simpl; [done|].
  apply IH; [|apply Hf; [left|done]].
  intros st' y Hy. apply Hf. by right.
Qed.

Lemma twoOpt_sweep_unchanged g size p c p' c' :
  twoOpt_sweep g size p c = (p', c', false) ->
  p' = p /\ c' = c /\
  forall i j, i + 2 <= j -> j < size -> twoOpt_pair g size i j (p, c, false) = (p, c, false).
Proof.
  unfold twoOpt_sweep. intros Hs.
  assert (Hmono : forall st j i, st.2 = true -> (twoOpt_pair g size i j st).2 = true).
  { intros [[q d] b] j i Hb. simpl in Hb. subst. apply twoOpt_pair_improved. }
  assert (Hstay : forall q d i j, (twoOpt_pair g size i j (q, d, false)).2 = false ->
                                  twoOpt_pair g size i j (q, d, false) = (q, d, false)).
  { intros q d i j H. destruct (twoOpt_pair_cases g size i j q d false) as [E|[dl [_ E]]];
    rewrite E in *; [done|discriminate]. }
  assert (Hin : forall i q d,
    (fold_left (fun st j => twoOpt_pair g size i j st) (seq (i + 2) (size - (i + 2)))
               (q, d, false)).2 = false ->
    fold_left (fun st j => twoOpt_pair g size i j st) (seq (i + 2) (size - (i + 2)))
               (q, d, false) = (q, d, false) /\
    forall j, j ∈ seq (i + 2) (size - (i + 2)) -> twoOpt_pair g size i j (q, d, false) = (q, d, false)).
  { intros i q d. apply (fold_unchanged (fun st j => twoOpt_pair g size i j st)).
    - intros st j. apply Hmono.
    - intros q' d' j. apply Hstay. }
  destruct (fold_unchanged
    (fun st i => fold_left (fun st j => twoOpt_pair g size i j st)
                           (seq (i + 2) (size - (i + 2))) st) (seq 0 size) p c)
    as [Hfix Hall].
  - intros st i Hst. apply (fold_left_invariant (fun st => st.2 = true)); [|done].
    intros st' j _ H. by apply Hmono.
  - intros q d i H. by apply Hin.
  - by rewrite Hs.
  - rewrite Hs in Hfix. injection Hfix as -> ->. split; [done|split; [done|]].
    intros i j Hij Hj.
    assert (Hi : i ∈ seq 0 size) by (apply elem_of_seq; lia).
    pose proof (Hall i Hi) as Hfi.
    destruct (Hin i p c) as [_ Hj']; [by rewrite Hfi|].
    apply Hj'. apply elem_of_seq. lia.
Qed.

(** Properties of [(path, cost)] kept by every step are kept by a sweep. *)
Lemma twoOpt_sweep_invariant (R : list Z -> Q -> Prop) g size p c :
  (forall i j q d b, i + 2 <= j -> j < size -> R q d ->
     R (twoOpt_pair g size i j (q, d, b)).1.1 (twoOpt_pair g size i j (q, d, b)).1.2) ->
  R p c -> R (twoOpt_sweep g size p c).1.1 (twoOpt_sweep g size p c).1.2.
Proof.
  intros Hstep Hpc. unfold twoOpt_sweep.
  apply (fold_left_invariant (fun st => R st.1.1 st.1.2)); [|done].
  intros st i _ Hst.
  apply (fold_left_invariant (fun st => R st.1.1 st.1.2)); [|done].
  intros [[q d] b] j Hj Hqd. apply elem_of_seq in Hj. apply Hstep; [lia|lia|done].
Qed.

(** ... and by the whole loop. *)
Lemma twoOpt_loop_invariant (R : list Z -> Q -> Prop) fuel g size done t p c b p' c' t' :
  (forall q d, R q d -> R (twoOpt_sweep g size q d).1.1 (twoOpt_sweep g size q d).1.2) ->
  R p c -> twoOpt_loop fuel g size done t p c b = Some (p', c', t') -> R p' c'.
Proof.
  revert t p c b. induction fuel as [|fuel IH]; intros t p c b Hsw Hpc; simpl; [discriminate|].
  destruct b; [|congruence].
  destruct (done t); [congruence|].
  destruct (twoOpt_sweep g size p c) as [[q d] b'] eqn:E.
  apply IH; [done|]. pose proof (Hsw p c Hpc) as H. by rewrite E in H.
Qed.

(** When no poll saw the deadline, the loop stopped after a sweep that
    applied no move. *)
Lemma twoOpt_loop_converged fuel g size done t p c p' c' t' :
  twoOpt_loop fuel g size done t p c true = Some (p', c', t') ->
  (forall k, t <= k < t' -> done k = false) ->
  exists q d, twoOpt_sweep g size q d = (p', c', false).
Proof.
  revert t p c. induction fuel as [|fuel IH]; intros t p c; simpl; [discriminate|].
  intros Hrun Hnc.
  destruct (done t) eqn:Ed.
  { injection Hrun as _ _ <-. rewrite Hnc in Ed; [discriminate|lia]. }
  destruct (twoOpt_sweep g size p c) as [[q d] b'] eqn:E.
  destruct b'.
  - eapply IH; [exact Hrun|]. intros k Hk. apply Hnc.
    split; [lia|apply Hk].
  - destruct fuel; simpl in Hrun; [discriminate|].
    injection Hrun as -> -> _. eauto.
Qed.

Lemma length_swap p i j : length (swap p i j) = length p.
Proof.
  unfold swap. destruct (p !! i), (p !! j); try reflexivity. by rewrite !length_insert.
Qed.

Lemma length_reverse p i j : length (reverse p i j) = length p.
Proof.
  unfold reverse. generalize (j - i) as fuel. intros fuel. revert p i j.
  induction fuel as [|fuel IH]; intros p i j; simpl; [done|].
  case_decide; [|done]. by rewrite IH, length_swap.
Qed.

Lemma twoOpt_pair_length g size i j q d b :
  length (twoOpt_pair g size i j (q, d, b)).1.1 = length q.
Proof.
  destruct (twoOpt_pair_cases g size i j q d b) as [->|[dl [_ ->]]]; simpl;
  [done|apply length_reverse].
Qed.

Lemma cost_descent_trans a b c : cost_descent a b -> cost_descent b c -> cost_descent a c.
Proof.
  induction 1 as [a|a delta b Hd Hab IH]; intros Hbc; [done|].
  eapply cd_move; [exact Hd|]. by apply IH.
Qed.

Lemma cost_descent_le a b : cost_descent a b -> (b <= a)%Q.
Proof.
  induction 1 as [a|a delta b Hd Hab IH]; [apply Qle_refl|].
  unfold eps in Hd. lra.
Qed.

Lemma twoOpt_pair_descent g size i j q d b :
  cost_descent d (twoOpt_pair g size i j (q, d, b)).1.2.
Proof.
  destruct (twoOpt_pair_cases g size i j q d b) as [->|[dl [Hdl ->]]]; simpl.
  - constructor.
  - eapply cd_move; [exact Hdl|constructor].
Qed.

(** Convergence: a final sweep that applied no move leaves no improving
    pair behind. *)
Lemma twoOpt_pair_stays_no_move g n i j p c :
  i + 2 <= j -> j < n -> ~ (i = 0 /\ j = n - 1) ->
  twoOpt_pair g n i j (p, c, false) = (p, c, false) ->
  match edge g (p !!! i) (p !!! j), edge g (p !!! ((i + 1) mod n)) (p !!! ((j + 1) mod n)) with
  | Some wNew1, Some wNew2 =>
      ~ (((wNew1 + wNew2) - (weight g (p !!! i) (p !!! ((i + 1) mod n))
                             + weight g (p !!! j) (p !!! ((j + 1) mod n)))) < - eps)%Q
  | _, _ => True
  end.
Proof.
  intros Hij Hj Hex H. unfold twoOpt_pair in H. cbv zeta in H.
  rewrite decide_False in H by done.
  destruct (edge g _ _) as [wn1|]; [|done].
  destruct (edge g _ _) as [wn2|]; [|done].
  destruct (Qltb _ _) eqn:E; [discriminate|].
  apply Qltb_false in E. intros Hlt. apply (Qle_not_lt _ _ E Hlt).
Qed.

(* ----------------------------------------------------------------- *)
(** *** Tour costs *)

Lemma path_cost_app g l1 x l2 :
  (path_cost g (l1 ++ x :: l2) == path_cost g (l1 ++ [x]) + path_cost g (x :: l2))%Q.
Proof.
  induction l1 as [|a l1 IH]; simpl.
  - destruct l2; simpl; lra.
  - destruct l1 as [|b l1]; simpl in *.
    + destruct l2; simpl; lra.
    + rewrite IH. lra.
Qed.

Lemma path_cost_rev g l : symmetric g -> (path_cost g (rev l) == path_cost g l)%Q.
Proof.
  intros Hs. induction l as [|x l IH]; [reflexivity|].
  destruct l as [|y l]; [reflexivity|].
  change (rev (x :: y :: l)) with (rev (y :: l) ++ [x]).
  change (rev (y :: l)) with (rev l ++ [y]). rewrite <- app_assoc. simpl.
  rewrite path_cost_app. simpl.
  change (rev l ++ [y]) with (rev (y :: l)). rewrite IH. simpl.
  assert (Hw : weight g y x = weight g x y) by (unfold weight; by rewrite Hs).
  rewrite Hw. lra.
Qed.

Lemma path_cost_cons2 g a b l :
  path_cost g (a :: b :: l) = (weight g a b + path_cost g (b :: l))%Q.
Proof. reflexivity. Qed.

Lemma path_cost_2opt g X u1 v1 M u2 v2 C :
  symmetric g ->
  (path_cost g (X ++ u1 :: u2 :: rev M ++ v1 :: v2 :: C) ==
   path_cost g (X ++ u1 :: v1 :: M ++ u2 :: v2 :: C)
   + ((weight g u1 u2 + weight g v1 v2) - (weight g u1 v1 + weight g u2 v2)))%Q.
Proof.
  intros Hs.
  rewrite (path_cost_app g X u1 (u2 :: rev M ++ v1 :: v2 :: C)).
  rewrite (path_cost_app g X u1 (v1 :: M ++ u2 :: v2 :: C)).
  rewrite !(path_cost_cons2 g u1).
  change (u2 :: rev M ++ v1 :: v2 :: C) with ((u2 :: rev M) ++ v1 :: v2 :: C).
  change (v1 :: M ++ u2 :: v2 :: C) with ((v1 :: M) ++ u2 :: v2 :: C).
  rewrite (path_cost_app g (u2 :: rev M) v1 (v2 :: C)).
  rewrite (path_cost_app g (v1 :: M) u2 (v2 :: C)).
  rewrite !path_cost_cons2.
  assert (Hrev : (path_cost g ((u2 :: rev M) ++ [v1]) == path_cost g ((v1 :: M) ++ [u2]))%Q).
  { rewrite <- (path_cost_rev g ((v1 :: M) ++ [u2])) by done.
    rewrite rev_app_distr. reflexivity. }
  rewrite Hrev. lra.
Qed.

Lemma tour_cost_lookup g q : q <> [] -> tour_cost g q = path_cost g (q ++ [q !!! 0]).
Proof. destruct q; [done|reflexivity]. Qed.

(** The incremental update of [twoOpt] keeps the running cost equal to
    the cost of the current tour, on a symmetric graph. *)
Lemma twoOpt_pair_cost g size i j q d b :
  symmetric g -> i + 2 <= j -> j < size -> length q = size ->
  (d == tour_cost g q)%Q ->
  ((twoOpt_pair g size i j (q, d, b)).1.2 == tour_cost g (twoOpt_pair g size i j (q, d, b)).1.1)%Q.
Proof.
  intros Hs Hij Hj Hlen Hd.
  destruct (split_pair q i j Hij ltac:(lia)) as (A & u1 & v1 & M & u2 & B & -> & HA & HjM).
  unfold twoOpt_pair. cbv zeta.
  case_decide; [done|].
  rewrite length_2opt in Hlen.
  replace ((i + 1) mod size) with (length A + 1) by (rewrite Nat.mod_small; lia).
  subst i j. rewrite lookup_2opt_u1, lookup_2opt_v1, lookup_2opt_u2.
  set (hd := (A ++ u1 :: v1 :: M ++ u2 :: B) !!! 0).
  assert (Hv2 : exists v2 C, B ++ [hd] = v2 :: C /\
            (A ++ u1 :: v1 :: M ++ u2 :: B) !!! ((length A + 2 + length M + 1) mod size) = v2).
  { destruct B as [|b0 B'].
    - exists hd, []. split; [done|].
      replace (length A + 2 + length M + 1) with size by (simpl in Hlen; lia).
      rewrite Nat.Div0.mod_same. done.
    - exists b0, (B' ++ [hd]). split; [done|].
      rewrite Nat.mod_small by (simpl in Hlen; lia).
      replace (A ++ u1 :: v1 :: M ++ u2 :: b0 :: B') with ((A ++ u1 :: v1 :: M ++ [u2]) ++ b0 :: B')
        by app_assoc_eq.
      apply list_lookup_total_middle. rewrite length_app. simpl. rewrite length_app. simpl. lia. }
  destruct Hv2 as (v2 & C & HBC & ->).
  destruct (edge g u1 u2) as [wn1|] eqn:E1; [|done].
  destruct (edge g v1 v2) as [wn2|] eqn:E2; [|done].
  destruct (Qltb _ _); [|done]. simpl.
  replace (S (length A + 1)) with (length A + 2) by lia.
  rewrite (reverse_2opt A u1 v1 M u2 B).
  assert (Hhd : (A ++ u1 :: u2 :: rev M ++ v1 :: B) !!! 0 = hd)
    by (unfold hd; destruct A; reflexivity).
  rewrite (tour_cost_lookup g (A ++ u1 :: u2 :: rev M ++ v1 :: B)) by (destruct A; discriminate).
  rewrite (tour_cost_lookup g (A ++ u1 :: v1 :: M ++ u2 :: B)) in Hd by (destruct A; discriminate).
  fold hd in Hd. rewrite Hhd.
  replace ((A ++ u1 :: u2 :: rev M ++ v1 :: B) ++ [hd])
    with (A ++ u1 :: u2 :: rev M ++ v1 :: (B ++ [hd])) by app_assoc_eq.
  replace ((A ++ u1 :: v1 :: M ++ u2 :: B) ++ [hd])
    with (A ++ u1 :: v1 :: M ++ u2 :: (B ++ [hd])) in Hd by app_assoc_eq.
  rewrite HBC in *. rewrite path_cost_2opt by done.
  assert (Hw1 : weight g u1 u2 = wn1) by (unfold weight; by rewrite E1).
  assert (Hw2 : weight g v1 v2 = wn2) by (unfold weight; by rewrite E2).
  rewrite Hw1, Hw2. rewrite Hd. lra.
Qed.

Lemma twoOpt_cost_invariant g fuel path cost done t p' c' t' :
  symmetric g -> (cost == tour_cost g path)%Q ->
  twoOpt fuel path cost g done t = Some (p', c', t') ->
  length p' = length path /\ (c' == tour_cost g p')%Q.
Proof.
  intros Hs Hc Hrun. unfold twoOpt in Hrun.
  apply (twoOpt_loop_invariant
           (fun q d => length q = length path /\ (d == tour_cost g q)%Q) _ _ _ _ _ _ _ _ _ _ _)
    in Hrun; [done| |done].
  intros q d Hqd. apply twoOpt_sweep_invariant; [|done].
  intros i j q' d' b Hij Hj [Hl Hd]. split.
  - by rewrite twoOpt_pair_length.
  - by apply twoOpt_pair_cost.
Qed.

(* ----------------------------------------------------------------- *)
(** *** Facts on the construction *)

Lemma scan_topK_elem k visited entries topK x :
  x ∈ scan_topK k visited entries topK ->
  x ∈ topK \/ (x ∈ entries /\ x.1 ∉ visited).
Proof.
  revert topK. induction entries as [|[n w] rest IH]; intros topK; simpl; [tauto|].
  case_decide as Hv.
  { intros Hx. destruct (IH _ Hx) as [?|[? ?]]; [tauto|]. right. split; [by right|done]. }
  case_decide as Hl.
  { intros Hx. destruct (IH _ Hx) as [Hx'|[? ?]].
    - apply elem_of_app in Hx' as [?|Hx']; [tauto|].
      apply list_elem_of_singleton in Hx' as ->. right. split; [left|done].
    - right. split; [by right|done]. }
  destruct (Qltb _ _).
  - intros Hx. destruct (IH _ Hx) as [Hx'|[? ?]].
    + apply list_elem_of_lookup in Hx' as [i Hi].
      apply list_lookup_insert_Some in Hi as [(_ & <- & _)|(_ & Hi)].
      * right. split; [left|done].
      * left. by eapply list_elem_of_lookup_2.
    + right. split; [by right|done].
  - intros Hx. destruct (IH _ Hx) as [?|[? ?]]; [tauto|]. right. split; [by right|done].
Qed.

Lemma path_cost_snoc g l a b :
  last l = Some a -> (path_cost g (l ++ [b]) == path_cost g l + weight g a b)%Q.
Proof.
  intros Hl. apply last_Some in Hl as [l' ->].
  rewrite <- app_assoc. simpl. rewrite path_cost_app. simpl. lra.
Qed.

Section ConstructionFacts.

Context {Rand : Type} (Intn : Rand -> Z -> Z * Rand).
Context {Iter : Type} (range_map : Iter -> gmap Z Q -> list (Z * Q) * Iter).

(** Go's map iteration visits every entry of the map exactly once. *)
Hypothesis range_map_perm : forall it m, (range_map it m).1 ≡ₚ map_to_list m.

Lemma rnn_loop_spec g iters current path visited cost rng it p c rng' it' :
  graph_wf g ->
  NoDup path -> (forall x, x ∈ visited <-> x ∈ path) -> (forall x, x ∈ path -> x ∈ nodes g) ->
  last path = Some current -> (cost == path_cost g path)%Q ->
  rnn_loop Intn range_map iters g current path visited cost rng it = (Some (p, c), rng', it') ->
  (exists suffix, p = path ++ suffix) /\ length p = length path + iters /\
  NoDup p /\ (forall x, x ∈ p -> x ∈ nodes g) /\ (c == path_cost g p)%Q.
Proof.
  intros Hwf. revert current path visited cost rng it.
  induction iters as [|iters IH]; intros current path visited cost rng it Hnd Hvis Hin Hlast Hc;
    simpl.
  { intros [= -> -> _ _]. split; [exists []; by rewrite app_nil_r|]. split; [lia|]. done. }
  destruct (range_map it (neighbors g current)) as [entries it1] eqn:Er.
  destruct (scan_topK 3 visited entries []) as [|c0 cs] eqn:Es; [discriminate|].
  destruct (Intn rng _) as [idx rng1].
  destruct (index (c0 :: cs) idx) as [[n d]|] eqn:Ei; [|discriminate].
  intros Hrun.
  assert (Hnd_in : (n, d) ∈ scan_topK 3 visited entries []).
  { rewrite Es. unfold index in Ei. destruct (idx <? 0)%Z; [discriminate|].
    by eapply list_elem_of_lookup_2. }
  apply scan_topK_elem in Hnd_in as [Hnil|[Hent Hnv]]; [inversion Hnil|].
  simpl in Hnv.
  assert (He : edge g current n = Some d).
  { unfold edge. apply elem_of_map_to_list.
    pose proof (range_map_perm it (neighbors g current)) as Hp. rewrite Er in Hp. simpl in Hp.
    by rewrite <- Hp. }
  assert (Hn : n ∈ nodes g) by (eapply (wf_nbr_nodes _ Hwf); exact He).
  assert (Hnp : n ∉ path) by (rewrite <- Hvis; done).
  destruct (IH n (path ++ [n]) ({[n]} ∪ visited) (cost + d)%Q rng1 it1) as
    ([suf Hsuf] & Hlen & Hnd' & Hin' & Hc'); [| | | | |exact Hrun|].
  - apply NoDup_app. split; [done|]. split; [|apply NoDup_singleton].
    intros x Hx Hx'. apply list_elem_of_singleton in Hx'. by subst.
  - intros x. rewrite elem_of_union, elem_of_singleton, elem_of_app, list_elem_of_singleton, Hvis.
    tauto.
  - intros x Hx. apply elem_of_app in Hx as [Hx|Hx]; [by apply Hin|].
    apply list_elem_of_singleton in Hx. by subst.
  - apply last_snoc.
  - rewrite path_cost_snoc by done. rewrite Hc. unfold weight. rewrite He. simpl. reflexivity.
  - split; [exists (n :: suf); by rewrite Hsuf, <- app_assoc|].
    rewrite length_app in Hlen. simpl in Hlen. split; [lia|]. done.
Qed.

Lemma randomizedNearestNeighbor_spec g startNode numNodes rng it p c rng' it' :
  graph_wf g -> startNode ∈ nodes g ->
  randomizedNearestNeighbor Intn range_map startNode numNodes g rng it = (Some (p, c), rng', it') ->
  length p = S (numNodes - 1) /\ NoDup p /\ (forall x, x ∈ p -> x ∈ nodes g) /\
  (c == tour_cost g p)%Q.
Proof.
  intros Hwf Hs. unfold randomizedNearestNeighbor.
  destruct (rnn_loop Intn range_map (numNodes - 1) g startNode [startNode] {[startNode]} 0%Q rng it)
    as [[[[path cost]|] rng1] it1] eqn:Er; [|discriminate].
  destruct (rnn_loop_spec g (numNodes - 1) startNode [startNode] {[startNode]} 0%Q rng it
              path cost rng1 it1) as ([suf ->] & Hlen & Hnd & Hin & Hc); try done.
  - apply NoDup_singleton.
  - intros x. rewrite elem_of_singleton, list_elem_of_singleton. tauto.
  - intros x Hx. apply list_elem_of_singleton in Hx. by subst.
  - destruct (last ([startNode] ++ suf)) as [lst|] eqn:El; [|done]. cbn [head app].
    destruct (edge g lst startNode) as [w|] eqn:Ew; [|done].
    intros [= <- <- _ _]. rewrite length_app in Hlen. simpl in Hlen.
    split; [simpl in *; lia|]. split; [done|]. split; [done|].
    unfold tour_cost.
    change ((startNode :: suf) ++ [startNode]) with (([startNode] ++ suf) ++ [startNode]).
    rewrite path_cost_snoc by exact El. rewrite Hc. unfold weight. rewrite Ew. reflexivity.
Qed.

End ConstructionFacts.

(* ----------------------------------------------------------------- *)
(** *** Facts on the orchestrator *)

Lemma interleave_elem {A} (sched : list nat) (qs : list (list A)) x :
  x ∈ interleave sched qs -> exists q, q ∈ qs /\ x ∈ q.
Proof.
  revert qs. induction sched as [|w sched IH]; intros qs; simpl.
  - intros Hx. apply list_elem_of_In, in_concat in Hx as (q & Hq & Hxq).
    exists q. split; by apply list_elem_of_In.
  - destruct (qs !! w) as [[|a q]|] eqn:Ew; [by apply IH| |by apply IH].
    intros Hx. apply elem_of_cons in Hx as [->|Hx].
    + exists (a :: q). split; [by eapply list_elem_of_lookup_2|left].
    + destruct (IH _ Hx) as (q' & Hq' & Hxq').
      apply list_elem_of_lookup in Hq' as [i Hi].
      apply list_lookup_insert_Some in Hi as [(_ & <- & _)|(_ & Hi)].
      * exists (a :: q). split; [by eapply list_elem_of_lookup_2|by right].
      * exists q'. split; [by eapply list_elem_of_lookup_2|done].
Qed.

Lemma interleave_nil {A} (sched : list nat) (qs : list (list A)) :
  (forall q, q ∈ qs -> q = []) -> interleave sched qs = [].
Proof.
  intros Hq. destruct (interleave sched qs) as [|x l] eqn:E; [done|].
  destruct (interleave_elem sched qs x) as (q & Hin & Hx); [rewrite E; left|].
  rewrite (Hq q Hin) in Hx. inversion Hx.
Qed.

Lemma fold_record_best l st p c k :
  fold_left record l st = (Some p, c, k) ->
  (st.1.1 = Some p /\ st.1.2 = c) \/ (p, c) ∈ l.
Proof.
  revert st. induction l as [|[q d] l IH]; intros [[bp bc] tc]; simpl.
  - intros [= -> -> _]. by left.
  - intros Hf. destruct (IH _ Hf) as [[H1 H2]|H]; [|right; by right].
    destruct (Qltb d bc); simpl in H1, H2.
    + injection H1 as ->. subst. right. left.
    + left. by split.
Qed.

Lemma fold_record_count l st :
  (fold_left record l st).2 = st.2 + length l.
Proof.
  revert st. induction l as [|[q d] l IH]; intros [[bp bc] tc]; simpl; [lia|].
  rewrite IH. destruct (Qltb d bc); simpl; lia.
Qed.

Section OrchestratorFacts.

Context {Rand : Type} (Intn : Rand -> Z -> Z * Rand).
Context {Iter : Type} (range_map : Iter -> gmap Z Q -> list (Z * Q) * Iter).

Lemma worker_Forall (P : list Z * Q -> Prop) fuel g n done t rng it atts :
  (forall s r i p c r' i', s ∈ nodes g ->
     randomizedNearestNeighbor Intn range_map s n g r i = (Some (p, c), r', i') -> P (p, c)) ->
  (forall f p c d t0 p' c' t', P (p, c) -> twoOpt f p c g d t0 = Some (p', c', t') -> P (p', c')) ->
  worker Intn range_map fuel g n done t rng it = Some atts -> Forall P atts.
Proof.
  intros Hc Ht. revert t rng it atts.
  induction fuel as [|fuel IH]; intros t rng it atts; simpl; [discriminate|].
  destruct (done t); [intros [= <-]; constructor|].
  destruct (Intn rng _) as [idx rng1].
  destruct (index (nodes g) idx) as [s|] eqn:Ei; [|discriminate].
  assert (Hs : s ∈ nodes g).
  { unfold index in Ei. destruct (idx <? 0)%Z; [discriminate|]. by eapply list_elem_of_lookup_2. }
  destruct (randomizedNearestNeighbor Intn range_map s n g rng1 it) as [[[[p c]|] rng2] it2] eqn:Er.
  - destruct (twoOpt fuel p c g done (S t)) as [[[p' c'] t']|] eqn:Eo; [|discriminate].
    destruct (worker Intn range_map fuel g n done t' rng2 it2) as [rest|] eqn:Ew; [|discriminate].
    intros [= <-]. constructor; [|by eapply IH].
    eapply Ht; [|exact Eo]. by eapply Hc.
  - apply IH.
Qed.

(** A returned non-empty tour is the refined result of one attempt. *)
Lemma SolveTSP_attempt (P : list Z * Q -> Prop) fuel g maxCPU maxSeconds numCPU env sched p c k :
  2 <= NodeCount g ->
  (forall s r i p c r' i', s ∈ nodes g ->
     randomizedNearestNeighbor Intn range_map s (NodeCount g) g r i = (Some (p, c), r', i') ->
     P (p, c)) ->
  (forall f p c d t0 p' c' t', P (p, c) -> twoOpt f p c g d t0 = Some (p', c', t') -> P (p', c')) ->
  SolveTSP Intn range_map fuel g maxCPU maxSeconds numCPU env sched = Some (p, c, k) ->
  p <> [] -> P (p, c).
Proof.
  intros Hn Hc Ht. unfold SolveTSP.
  rewrite decide_False by lia. rewrite decide_False by lia.
  destruct (mapM _ _) as [qs|] eqn:Em; [|discriminate].
  destruct (fold_left record (interleave sched qs) (None, MaxFloat64, 0))
    as [[[bp|] bc] tc] eqn:Ef; intros Hres Hp; [|by injection Hres as <-].
  injection Hres as -> -> _.
  destruct (fold_record_best _ _ _ _ _ Ef) as [[H _]|Hin]; [discriminate|].
  destruct (interleave_elem _ _ _ Hin) as (q & Hq & Hpq).
  apply mapM_Some_1 in Em.
  apply list_elem_of_lookup in Hq as [i Hi].
  destruct (Forall2_lookup_r _ _ _ _ _ Em Hi) as (w & _ & Hw).
  destruct (env w) as [[d r] it].
  assert (HF : Forall P q) by (by eapply worker_Forall).
  rewrite Forall_forall in HF. by apply HF.
Qed.

End OrchestratorFacts.

(* ----------------------------------------------------------------- *)
(** *** twoOpt permutes the tour *)

Lemma twoOpt_pair_perm g size i j q d b :
  i + 2 <= j -> j < size -> length q = size ->
  (twoOpt_pair g size i j (q, d, b)).1.1 ≡ₚ q.
Proof.
  intros Hij Hj Hlen.
  destruct (twoOpt_pair_cases g size i j q d b) as [->|[dl [_ ->]]]; simpl; [done|].
  destruct (split_pair q i j Hij ltac:(lia)) as (A & u1 & v1 & M & u2 & B & -> & HA & HjM).
  subst i j. rewrite reverse_2opt.
  apply Permutation_app_head. constructor.
  transitivity (u2 :: v1 :: rev M ++ B).
  { constructor. symmetry. apply Permutation_middle. }
  transitivity (v1 :: u2 :: M ++ B).
  { rewrite Permutation_swap. do 2 constructor. apply Permutation_app_tail.
    symmetry. apply Permutation_rev. }
  constructor. apply Permutation_middle.
Qed.

Lemma twoOpt_perm fuel path cost g done t p' c' t' :
  twoOpt fuel path cost g done t = Some (p', c', t') -> p' ≡ₚ path.
Proof.
  intros Hrun. unfold twoOpt in Hrun.
  enough (length p' = length path /\ p' ≡ₚ path) by tauto.
  eapply (twoOpt_loop_invariant (fun q _ => length q = length path /\ q ≡ₚ path));
    [|done|exact Hrun].
  intros q d Hq.
  apply (twoOpt_sweep_invariant (fun q _ => length q = length path /\ q ≡ₚ path)); [|done].
  intros i j q' d' b Hij Hj [Hl Hp]. split.
  - by rewrite twoOpt_pair_length.
  - rewrite twoOpt_pair_perm; [done|lia|lia|lia].
Qed.

(** A construction that visits [NodeCount g] distinct nodes of [g] visits
    all of them. *)
Lemma full_tour_nodes g p :
  graph_wf g -> length p = NodeCount g -> NoDup p -> (forall x, x ∈ p -> x ∈ nodes g) ->
  p ≡ₚ nodes g.
Proof.
  intros Hwf Hlen Hnd Hin. apply submseteq_length_Permutation.
  - by apply NoDup_submseteq.
  - unfold NodeCount in Hlen. lia.
Qed.

Lemma twoOpt_descent fuel path cost g done t p' c' t' :
  twoOpt fuel path cost g done t = Some (p', c', t') -> cost_descent cost c'.
Proof.
  intros Hrun. unfold twoOpt in Hrun.
  eapply (twoOpt_loop_invariant (fun _ d => cost_descent cost d)); [|constructor|exact Hrun].
  intros q d Hd. apply (twoOpt_sweep_invariant (fun _ d => cost_descent cost d)); [|done].
  intros i j q' d' b _ _ Hd'. eapply cost_descent_trans; [exact Hd'|apply twoOpt_pair_descent].
Qed.

Lemma NodeCount_one g : NodeCount g = 1 -> exists u, nodes g = [u].
Proof. unfold NodeCount. destruct (nodes g) as [|u [|v l]]; simpl; try lia. eauto. Qed.

(** In a graph built by [AddEdge], the only node of a one-node graph
    carries a self-loop. *)
Lemma one_node_self_loop g u : graph_wf g -> nodes g = [u] -> exists w, edge g u u = Some w.
Proof.
  intros Hwf Hn. destruct (wf_has_nbr g Hwf u) as (v & w & Hv); [rewrite Hn; left|].
  pose proof (wf_nbr_nodes g Hwf _ _ _ Hv) as Hvin. rewrite Hn in Hvin.
  apply list_elem_of_singleton in Hvin. subst v. eauto.
Qed.

Lemma no_self_loop_fold g es :
  (forall u, edge g u u = None) -> Forall (fun e : Z * Z * Q => e.1.1 <> e.1.2) es ->
  forall u, edge (fold_left (fun g '(f, t, w) => AddEdge g f t w) es g) u u = None.
Proof.
  revert g. induction es as [|[[f t] w] es IH]; intros g Hg Hes; simpl; [done|].
  apply Forall_cons in Hes as [Hft Hes]. simpl in Hft.
  apply IH; [|done]. intros u. rewrite edge_AddEdge.
  rewrite decide_False by (intros [[-> ->]|[-> ->]]; congruence). apply Hg.
Qed.

Lemma edge_NewGraph n u v : edge (NewGraph n) u v = None.
Proof. reflexivity. Qed.

(* ================================================================= *)
(** ** Properties of the solver *)

(** C1: every non-empty tour returned by [SolveTSP] on a graph built by
    [AddEdge] lists each node of the graph exactly once: it has no
    duplicate and omits no node. *)
Theorem SolveTSP_tour_permutation {Rand Iter : Type} (Intn : Rand -> Z -> Z * Rand)
    (range_map : Iter -> gmap Z Q -> list (Z * Q) * Iter)
    (range_map_perm : forall it m, (range_map it m).1 ≡ₚ map_to_list m)
    nCount es fuel maxCPU maxSeconds numCPU env sched p c k :
  SolveTSP Intn range_map fuel (build nCount es) maxCPU maxSeconds numCPU env sched
    = Some (p, c, k) ->
  p <> [] ->
  NoDup p /\ (forall u, u ∈ p <-> u ∈ nodes (build nCount es)).
Proof.
  pose proof (build_wf nCount es) as Hwf. set (g := build nCount es) in *.
  intros Hrun Hp.
  destruct (decide (NodeCount g = 0)) as [H0|H0].
  { unfold SolveTSP in Hrun. rewrite decide_True in Hrun by done.
    injection Hrun as <- _ _. done. }
  destruct (decide (NodeCount g = 1)) as [H1|H1].
  { unfold SolveTSP in Hrun. rewrite decide_False in Hrun by done.
    rewrite decide_True in Hrun by done.
    injection Hrun as <- _ _. split; [apply (wf_nodup _ Hwf)|done]. }
  apply (SolveTSP_attempt Intn range_map
           (fun pc => NoDup pc.1 /\ forall u, u ∈ pc.1 <-> u ∈ nodes g)
           fuel g maxCPU maxSeconds numCPU env sched p c k); [lia| | |done|done].
  - intros s r i q d r' i' Hs Hr.
    edestruct (randomizedNearestNeighbor_spec Intn range_map range_map_perm)
      as (Hlen & Hnd & Hin & _); [exact Hwf|exact Hs|exact Hr|].
    assert (Hq : q ≡ₚ nodes g) by (apply full_tour_nodes; [done|lia|done|done]).
    simpl. split; [rewrite Hq; apply (wf_nodup _ Hwf)|intros u; rewrite Hq; tauto].
  - intros f q d dn t0 q' d' t' [Hnd Hin] Ho. apply twoOpt_perm in Ho.
    simpl in *. split; [rewrite Ho; exact Hnd|intros u; rewrite Ho; apply Hin].
Qed.

(** C2 (amended): computing with exact weights, a tour of at least two
    nodes returned by [SolveTSP] on a graph built by [AddEdge] costs
    exactly the sum of the weights of its consecutive edges plus the
    closing edge; and on a graph with symmetric weights each call of
    [twoOpt] started from the true cost of its tour returns the true cost
    of the tour it returns.  (A one-node result reports cost 0 even when
    the node carries a self-loop.) *)
Theorem SolveTSP_cost_is_tour_cost {Rand Iter : Type} (Intn : Rand -> Z -> Z * Rand)
    (range_map : Iter -> gmap Z Q -> list (Z * Q) * Iter)
    (range_map_perm : forall it m, (range_map it m).1 ≡ₚ map_to_list m)
    nCount es fuel maxCPU maxSeconds numCPU env sched p c k :
  (SolveTSP Intn range_map fuel (build nCount es) maxCPU maxSeconds numCPU env sched
     = Some (p, c, k) ->
   2 <= length p ->
   (c == tour_cost (build nCount es) p)%Q) /\
  (forall g f path cost done t p' c' t',
     symmetric g -> (cost == tour_cost g path)%Q ->
     twoOpt f path cost g done t = Some (p', c', t') ->
     (c' == tour_cost g p')%Q).
Proof.
  split.
  - pose proof (build_wf nCount es) as Hwf. set (g := build nCount es) in *.
    intros Hrun Hp.
    destruct (decide (NodeCount g = 0)) as [H0|H0].
    { unfold SolveTSP in Hrun. rewrite decide_True in Hrun by done.
      injection Hrun as <- _ _. simpl in Hp. lia. }
    destruct (decide (NodeCount g = 1)) as [H1|H1].
    { unfold SolveTSP in Hrun. rewrite decide_False in Hrun by done.
      rewrite decide_True in Hrun by done.
      injection Hrun as <- _ _. unfold NodeCount in H1. lia. }
    apply (SolveTSP_attempt Intn range_map (fun pc => pc.2 == tour_cost g pc.1)%Q
             fuel g maxCPU maxSeconds numCPU env sched p c k); [lia| | |done|].
    + intros s r i q d r' i' Hs Hr.
      edestruct (randomizedNearestNeighbor_spec Intn range_map range_map_perm)
        as (_ & _ & _ & Hc); [exact Hwf|exact Hs|exact Hr|]. exact Hc.
    + intros f q d dn t0 q' d' t' Hd Ho.
      eapply twoOpt_cost_invariant; [apply (wf_sym _ Hwf)|exact Hd|exact Ho].
    + intros ->. simpl in Hp. lia.
  - intros g f path cost done t p' c' t' Hs Hc Hrun.
    eapply twoOpt_cost_invariant; [exact Hs|exact Hc|exact Hrun].
Qed.

(** C3: the cost [twoOpt] returns is at most the cost it was given, and
    it is reached from that cost through a chain of applied moves, each
    of which changes the running cost by a delta below [-1e-9]. *)
Theorem twoOpt_cost_nonincreasing fuel path cost g done t p' c' t' :
  twoOpt fuel path cost g done t = Some (p', c', t') ->
  cost_descent cost c' /\ (c' <= cost)%Q.
Proof.
  intros Hrun. pose proof (twoOpt_descent _ _ _ _ _ _ _ _ _ Hrun) as Hd.
  split; [exact Hd|by apply cost_descent_le].
Qed.

(** C4: when no poll of the cancellation signal during a run of [twoOpt]
    reports it fired, the returned tour has no improving 2-opt move left
    (pair [(0, n-1)] excluded). *)
Theorem twoOpt_converged_no_improving fuel path cost g done t p' c' t' :
  twoOpt fuel path cost g done t = Some (p', c', t') ->
  (forall k, t <= k < t' -> done k = false) ->
  no_improving_2opt g p'.
Proof.
  intros Hrun Hnc.
  assert (Hlen : length p' = length path)
    by (apply Permutation_length; eapply twoOpt_perm; exact Hrun).
  unfold twoOpt in Hrun.
  destruct (twoOpt_loop_converged _ _ _ _ _ _ _ _ _ _ Hrun Hnc) as (q & d & Hs).
  destruct (twoOpt_sweep_unchanged _ _ _ _ _ _ Hs) as (Hq & Hd & Hpairs).
  subst p'. unfold no_improving_2opt. cbv zeta. rewrite Hlen.
  intros i j Hij Hj Hex.
  apply (twoOpt_pair_stays_no_move g (length path) i j q d Hij Hj Hex).
  by apply Hpairs.
Qed.

(** C6 (amended): [AddEdge(u, u, w)] stores the self-loop [u]–[u] with
    weight [w]; a call with distinct endpoints creates no self-loop, so a
    graph built only from such calls has none. *)
Theorem AddEdge_self_loops :
  (forall g u w, edge (AddEdge g u u w) u u = Some w) /\
  (forall nCount es, Forall (fun e : Z * Z * Q => e.1.1 <> e.1.2) es ->
     forall u, edge (build nCount es) u u = None).
Proof.
  split.
  - intros g u w. rewrite edge_AddEdge. rewrite decide_True by tauto. reflexivity.
  - intros nCount es Hes u. unfold build.
    apply no_self_loop_fold; [intros v; apply edge_NewGraph|exact Hes].
Qed.

(** C7: the stored weights of a graph built by [AddEdge] are symmetric
    (the edge [(u, v)] is stored iff [(v, u)] is, with the same weight),
    and every [AddEdge] call preserves symmetry. *)
Theorem build_symmetric nCount es :
  symmetric (build nCount es) /\
  (forall g a b w, symmetric g -> symmetric (AddEdge g a b w)).
Proof.
  split; [apply (wf_sym _ (build_wf nCount es))|].
  intros g a b w Hs u v. rewrite !edge_AddEdge.
  destruct (decide ((u = a /\ v = b) \/ (u = b /\ v = a))) as [H|H];
  destruct (decide ((v = a /\ u = b) \/ (v = b /\ u = a))) as [H'|H'];
  [done|tauto|tauto|apply Hs].
Qed.

(** C8: on a graph with no node [SolveTSP] returns the empty tour, cost 0
    and 0 attempts; on a graph with one node [u] it returns [[u]], cost 0
    and 1 attempt; in both cases whatever the workers' environments, the
    parallelism and the time budget, since no worker runs. *)
Theorem SolveTSP_degenerate {Rand Iter : Type} (Intn : Rand -> Z -> Z * Rand)
    (range_map : Iter -> gmap Z Q -> list (Z * Q) * Iter) g :
  (NodeCount g = 0 -> forall fuel maxCPU maxSeconds numCPU env sched,
     SolveTSP Intn range_map fuel g maxCPU maxSeconds numCPU env sched = Some ([], 0%Q, 0)) /\
  (NodeCount g = 1 -> exists u, nodes g = [u] /\
     forall fuel maxCPU maxSeconds numCPU env sched,
     SolveTSP Intn range_map fuel g maxCPU maxSeconds numCPU env sched = Some ([u], 0%Q, 1)).
Proof.
  split.
  - intros H0 *. unfold SolveTSP. by rewrite decide_True.
  - intros H1. destruct (NodeCount_one g H1) as [u Hu]. exists u. split; [done|].
    intros *. unfold SolveTSP. rewrite decide_False by lia. rewrite decide_True by done.
    by rewrite Hu.
Qed.

(** C9 (amended): on a graph with no node or at least two nodes, when no
    worker completes a tour before the deadline (every construction a
    worker attempts fails, or none is attempted in time, or no worker
    runs), [SolveTSP] returns the empty tour with cost 0 and attempt count
    0: the failed constructions are not reported and not counted.  The
    hypothesis on the run is that the workers' lists of completed attempts
    are all empty. *)
Theorem SolveTSP_no_tour_completed {Rand Iter : Type} (Intn : Rand -> Z -> Z * Rand)
    (range_map : Iter -> gmap Z Q -> list (Z * Q) * Iter)
    fuel g maxCPU maxSeconds numCPU env sched qs :
  NodeCount g <> 1 ->
  mapM (fun i => let '(done, rng, it) := env i in
                 worker Intn range_map fuel g (NodeCount g) done 0 rng it)
       (seq 0 (Z.to_nat (Z.min numCPU maxCPU))) = Some qs ->
  Forall (fun q => q = []) qs ->
  SolveTSP Intn range_map fuel g maxCPU maxSeconds numCPU env sched = Some ([], 0%Q, 0).
Proof.
  intros H1 Hm Hnil. unfold SolveTSP.
  case_decide; [done|]. rewrite decide_False by done.
  rewrite Hm.
  rewrite (interleave_nil sched qs); [done|].
  intros q Hq. by rewrite Forall_forall in Hnil; apply Hnil.
Qed.

(** C10: on a graph with at least two nodes, a requested parallelism of
    zero or less starts no worker and [SolveTSP] returns the empty tour,
    cost 0 and 0 attempts, whatever the time budget. *)
Theorem SolveTSP_no_workers {Rand Iter : Type} (Intn : Rand -> Z -> Z * Rand)
    (range_map : Iter -> gmap Z Q -> list (Z * Q) * Iter)
    fuel g maxCPU maxSeconds numCPU env sched :
  2 <= NodeCount g -> (maxCPU <= 0)%Z ->
  SolveTSP Intn range_map fuel g maxCPU maxSeconds numCPU env sched = Some ([], 0%Q, 0).
Proof.
  intros Hn Hm. unfold SolveTSP.
  rewrite decide_False by lia. rewrite decide_False by lia.
  replace (Z.to_nat (Z.min numCPU maxCPU)) with 0 by lia. simpl.
  rewrite (interleave_nil sched []) by (intros q Hq; inversion Hq). reflexivity.
Qed.

(* ----------------------------------------------------------------- *)
(** *** Replay: runs whose map iterations agree *)

Section Replay.

Context {Rand : Type} (Intn : Rand -> Z -> Z * Rand).
Context {Iter : Type} (range_map : Iter -> gmap Z Q -> list (Z * Q) * Iter).

Variable g : Graph.

(** [R it1 it2]: from these iteration states, every [range] over a
    neighbour map of [g] visits the entries in the same order, now and
    later. *)
Variable R : Iter -> Iter -> Prop.
Hypothesis R_range : forall it1 it2 u, R it1 it2 ->
  (range_map it1 (neighbors g u)).1 = (range_map it2 (neighbors g u)).1 /\
  R (range_map it1 (neighbors g u)).2 (range_map it2 (neighbors g u)).2.

Lemma rnn_loop_replay iters current path visited cost rng it1 it2 :
  R it1 it2 ->
  (rnn_loop Intn range_map iters g current path visited cost rng it1).1 =
  (rnn_loop Intn range_map iters g current path visited cost rng it2).1 /\
  R (rnn_loop Intn range_map iters g current path visited cost rng it1).2
    (rnn_loop Intn range_map iters g current path visited cost rng it2).2.
Proof.
  revert current path visited cost rng it1 it2.
  induction iters as [|iters IH]; intros current path visited cost rng it1 it2 HR; simpl;
    [done|].
  destruct (R_range it1 it2 current HR) as [He Hr].
  destruct (range_map it1 _) as [e1 i1], (range_map it2 _) as [e2 i2].
  simpl in He, Hr. subst e2.
  destruct (scan_topK 3 visited e1 []) as [|c0 cs]; [done|].
  destruct (Intn rng _) as [idx rng'].
  destruct (index _ idx) as [[n d]|]; [by apply IH|done].
Qed.

Lemma rnn_replay s n rng it1 it2 :
  R it1 it2 ->
  (randomizedNearestNeighbor Intn range_map s n g rng it1).1 =
  (randomizedNearestNeighbor Intn range_map s n g rng it2).1 /\
  R (randomizedNearestNeighbor Intn range_map s n g rng it1).2
    (randomizedNearestNeighbor Intn range_map s n g rng it2).2.
Proof.
  intros HR. unfold randomizedNearestNeighbor.
  destruct (rnn_loop_replay (n - 1) s [s] {[s]} 0%Q rng it1 it2 HR) as [He Hr].
  destruct (rnn_loop _ _ _ _ _ _ _ _ _ it1) as [[res1 r1] i1].
  destruct (rnn_loop _ _ _ _ _ _ _ _ _ it2) as [[res2 r2] i2].
  simpl in He, Hr. injection He as <- <-.
  destruct res1 as [[p c]|]; [|done].
  destruct (head p), (last p); try done.
  by destruct (edge g _ _).
Qed.

Lemma worker_replay fuel n done t rng it1 it2 :
  R it1 it2 ->
  worker Intn range_map fuel g n done t rng it1 = worker Intn range_map fuel g n done t rng it2.
Proof.
  revert t rng it1 it2. induction fuel as [|fuel IH]; intros t rng it1 it2 HR; simpl; [done|].
  destruct (done t); [done|].
  destruct (Intn rng _) as [idx rng1].
  destruct (index (nodes g) idx) as [s|]; [|done].
  destruct (rnn_replay s n rng1 it1 it2 HR) as [He Hr].
  destruct (randomizedNearestNeighbor _ _ s n g rng1 it1) as [[res1 r1] i1].
  destruct (randomizedNearestNeighbor _ _ s n g rng1 it2) as [[res2 r2] i2].
  simpl in He, Hr. injection He as <- <-.
  destruct res1 as [[p c]|]; [|by apply IH].
  destruct (twoOpt fuel p c g done (S t)) as [[[p' c'] t']|]; [|done].
  by rewrite (IH t' r1 i1 i2 Hr).
Qed.

End Replay.

Lemma mapM_ext_eq {A B} (f1 f2 : A -> option B) (l : list A) :
  (forall x, f1 x = f2 x) -> mapM f1 l = mapM f2 l.
Proof. intros Hf. induction l as [|x l IH]; simpl; [done|]. by rewrite Hf, IH. Qed.

(** C5 (amended): identical seeds make two runs identical only together
    with the other inputs of the run.  On a graph [g], when every [range]
    over a neighbour map of [g] visits the entries in the same order in
    both runs, the construction from a start node with the same random
    source gives the same result; a worker (its construction and [twoOpt]
    refinement attempts) gives the same attempts when, in addition, its
    deadline polls answer the same; and [SolveTSP] returns the same result
    when, in addition, every worker's deadline polls agree and the workers
    take the lock in the same order ([sched]). *)
Theorem replay_same_seed_same_order {Rand Iter : Type} (Intn : Rand -> Z -> Z * Rand)
    (range_map : Iter -> gmap Z Q -> list (Z * Q) * Iter) g (R : Iter -> Iter -> Prop) :
  (forall it1 it2 u, R it1 it2 ->
     (range_map it1 (neighbors g u)).1 = (range_map it2 (neighbors g u)).1 /\
     R (range_map it1 (neighbors g u)).2 (range_map it2 (neighbors g u)).2) ->
  (forall s n rng it1 it2, R it1 it2 ->
     (randomizedNearestNeighbor Intn range_map s n g rng it1).1.1 =
     (randomizedNearestNeighbor Intn range_map s n g rng it2).1.1) /\
  (forall fuel n done t rng it1 it2, R it1 it2 ->
     worker Intn range_map fuel g n done t rng it1 = worker Intn range_map fuel g n done t rng it2) /\
  (forall fuel maxCPU maxSeconds numCPU env1 env2 sched,
     (forall i, (env1 i).1 = (env2 i).1 /\ R (env1 i).2 (env2 i).2) ->
     SolveTSP Intn range_map fuel g maxCPU maxSeconds numCPU env1 sched =
     SolveTSP Intn range_map fuel g maxCPU maxSeconds numCPU env2 sched).
Proof.
  intros HR. split; [|split].
  - intros s n rng it1 it2 H12.
    by rewrite (proj1 (rnn_replay Intn range_map g R HR s n rng it1 it2 H12)).
  - intros fuel n done t rng it1 it2 H12. by apply (worker_replay Intn range_map g R HR).
  - intros fuel maxCPU maxSeconds numCPU env1 env2 sched Henv. unfold SolveTSP.
    case_decide; [done|]. case_decide; [done|].
    erewrite mapM_ext_eq; [done|]. intros i. simpl.
    destruct (Henv i) as [He Hr].
    destruct (env1 i) as [[d1 r1] i1], (env2 i) as [[d2 r2] i2].
    simpl in He, Hr. injection He as <- <-.
    by apply (worker_replay Intn range_map g R HR).
Qed.

(* ----------------------------------------------------------------- *)
(** *** Concrete inputs: iteration orders *)

Lemma rotate_perm {A} k (l : list A) : rotate k l ≡ₚ l.
Proof.
  unfold rotate. rewrite Permutation_app_comm. by rewrite take_drop.
Qed.

Lemma range_rot_perm k m : (range_rot k m).1 ≡ₚ map_to_list m.
Proof. apply rotate_perm. Qed.

Lemma range_fixed_perm i m : (range_fixed i m).1 ≡ₚ map_to_list m.
Proof. reflexivity. Qed.

Lemma square_symmetric : symmetric square.
Proof. apply (wf_sym _ (build_wf _ _)). Qed.

(* ----------------------------------------------------------------- *)
(** *** Witnesses and counterexamples *)

Lemma SolveTSP_tour_permutation_witness :
  SolveTSP lcg_Intn range_rot 20 square 1 1 1 (fun _ => (stop_after 3, 42%Z, 0)) []
    = Some ([2; 1; 4; 3]%Z, 4%Q, 1) /\
  NoDup [2; 1; 4; 3]%Z /\ (forall u, u ∈ [2; 1; 4; 3]%Z <-> u ∈ nodes square).
Proof.
  split; [vm_compute; reflexivity|].
  apply (SolveTSP_tour_permutation lcg_Intn range_rot range_rot_perm 4
           [((1, 2)%Z, 1%Q); ((2, 3)%Z, 1%Q); ((3, 4)%Z, 1%Q); ((4, 1)%Z, 1%Q);
            ((1, 3)%Z, 2%Q); ((2, 4)%Z, 2%Q)]
           20 1 1 1 (fun _ => (stop_after 3, 42%Z, 0)) [] [2; 1; 4; 3]%Z 4%Q 1).
  - vm_compute. reflexivity.
  - discriminate.
Defined.

Lemma SolveTSP_cost_single_node_counterexample :
  SolveTSP lcg_Intn range_rot 10 loop7 1 1 1 (fun _ => (stop_after 1, 42%Z, 0)) []
    = Some ([7%Z], 0%Q, 1) /\
  ~ (0 == tour_cost loop7 [7%Z])%Q.
Proof.
  split; [vm_compute; reflexivity|].
  vm_compute. intros H. discriminate H.
Qed.

Lemma SolveTSP_cost_is_tour_cost_witness :
  (4 == tour_cost square [2; 1; 4; 3]%Z)%Q /\ ((6 + -2) == tour_cost square [1; 2; 3; 4]%Z)%Q.
Proof.
  pose proof (SolveTSP_cost_is_tour_cost lcg_Intn range_rot range_rot_perm 4
           [((1, 2)%Z, 1%Q); ((2, 3)%Z, 1%Q); ((3, 4)%Z, 1%Q); ((4, 1)%Z, 1%Q);
            ((1, 3)%Z, 2%Q); ((2, 4)%Z, 2%Q)]
           20 1 1 1 (fun _ => (stop_after 3, 42%Z, 0)) [] [2; 1; 4; 3]%Z 4%Q 1) as [H1 H2].
  split.
  - apply H1; [vm_compute; reflexivity|simpl; lia].
  - apply (H2 square 10 [1; 3; 2; 4]%Z 6%Q (fun _ => false) 0 [1; 2; 3; 4]%Z (6 + -2)%Q 2).
    + exact square_symmetric.
    + vm_compute. reflexivity.
    + vm_compute. reflexivity.
Defined.

Lemma twoOpt_cost_nonincreasing_witness :
  cost_descent 6 (6 + -2) /\ ((6 + -2) <= 6)%Q.
Proof.
  apply (twoOpt_cost_nonincreasing 10 [1; 3; 2; 4]%Z 6%Q square (fun _ => false) 0
           [1; 2; 3; 4]%Z (6 + -2)%Q 2).
  vm_compute. reflexivity.
Defined.

Lemma twoOpt_converged_no_improving_witness : no_improving_2opt square [1; 2; 3; 4]%Z.
Proof.
  apply (twoOpt_converged_no_improving 10 [1; 3; 2; 4]%Z 6%Q square (fun _ => false) 0
           [1; 2; 3; 4]%Z (6 + -2)%Q 2).
  - vm_compute. reflexivity.
  - intros k _. reflexivity.
Defined.

(** From start node 1 of [pentagon] and seed 42, the construction builds
    a tour (which the refinement improves) when every map is visited from
    offset 0, and finds no tour when every map is visited from offset 1. *)
Lemma replay_iteration_order_counterexample :
  (randomizedNearestNeighbor lcg_Intn range_rot 1%Z 5 pentagon 42%Z 0).1.1
    = Some ([1; 5; 4; 2; 3]%Z, 7%Q) /\
  twoOpt 20 [1; 5; 4; 2; 3]%Z 7 pentagon (fun _ => false) 0
    = Some ([1; 5; 4; 3; 2]%Z, 5%Q, 2) /\
  (randomizedNearestNeighbor lcg_Intn range_rot 1%Z 5 pentagon 42%Z 1).1.1 = None.
Proof. vm_compute. split; [reflexivity|split; reflexivity]. Qed.

Lemma mod6_mod d a b : (d = 2 \/ d = 3) -> a mod 6 = b mod 6 -> a mod d = b mod d.
Proof.
  intros Hd H. rewrite (Nat.div_mod_eq a 6), (Nat.div_mod_eq b 6).
  destruct Hd as [-> | ->].
  - replace (6 * (a / 6) + a mod 6) with (a mod 6 + (3 * (a / 6)) * 2) by lia.
    replace (6 * (b / 6) + b mod 6) with (b mod 6 + (3 * (b / 6)) * 2) by lia.
    rewrite !Nat.Div0.mod_add. by rewrite H.
  - replace (6 * (a / 6) + a mod 6) with (a mod 6 + (2 * (a / 6)) * 3) by lia.
    replace (6 * (b / 6) + b mod 6) with (b mod 6 + (2 * (b / 6)) * 3) by lia.
    rewrite !Nat.Div0.mod_add. by rewrite H.
Qed.

(** The neighbour maps of [pentagon] have two or three entries, so
    [range_rot] visits them in the same order from offsets [k1] and [k2]
    that agree modulo 6. *)
Lemma pentagon_range_rot_mod6 k1 k2 u :
  k1 mod 6 = k2 mod 6 ->
  (range_rot k1 (neighbors pentagon u)).1 = (range_rot k2 (neighbors pentagon u)).1 /\
  (range_rot k1 (neighbors pentagon u)).2 mod 6 = (range_rot k2 (neighbors pentagon u)).2 mod 6.
Proof.
  intros Hk. unfold range_rot. cbn [fst snd]. split; [|done].
  destruct (decide (u ∈ nodes pentagon)) as [Hu|Hu].
  - assert (Hl : length (map_to_list (neighbors pentagon u)) = 2 \/
                 length (map_to_list (neighbors pentagon u)) = 3).
    { assert (Hn : nodes pentagon = [2; 1; 3; 5; 4]%Z) by (vm_compute; reflexivity).
      rewrite Hn in Hu.
      repeat (apply elem_of_cons in Hu as [->|Hu];
              [vm_compute; first [left; reflexivity|right; reflexivity]|]).
      by apply elem_of_nil in Hu. }
    unfold rotate.
    assert (Hm : k1 mod length (map_to_list (neighbors pentagon u)) =
                 k2 mod length (map_to_list (neighbors pentagon u))).
    { by apply mod6_mod. }
    by rewrite Hm.
  - assert (He : edges pentagon !! u = None).
    { destruct (edges pentagon !! u) eqn:E; [|done].
      exfalso. apply Hu. apply (wf_nodes pentagon (build_wf _ _)). rewrite E. eauto. }
    unfold neighbors. rewrite He. simpl. rewrite map_to_list_empty. unfold rotate. by rewrite !drop_nil, !take_nil.
Qed.

(** Seed 7 on [pentagon]: map iterations from offsets 0 and 6 agree on
    every neighbour map, and the worker's attempts are the same. *)
Lemma replay_same_seed_same_order_witness :
  worker lcg_Intn range_rot 10 pentagon 5 (stop_after 6) 0 7%Z 0
  = worker lcg_Intn range_rot 10 pentagon 5 (stop_after 6) 0 7%Z 6.
Proof.
  apply (replay_same_seed_same_order lcg_Intn range_rot pentagon
           (fun k1 k2 => k1 mod 6 = k2 mod 6)).
  - intros k1 k2 u Hk. by apply pentagon_range_rot_mod6.
  - reflexivity.
Defined.

Lemma AddEdge_self_loop_counterexample : edge (build 0 [((5, 5)%Z, 1%Q)]) 5%Z 5%Z = Some 1%Q.
Proof. vm_compute. reflexivity. Qed.

Lemma AddEdge_self_loops_witness :
  edge (AddEdge (NewGraph 0) 5 5 1) 5 5 = Some 1%Q /\
  edge (build 0 [((1, 2)%Z, 1%Q); ((2, 3)%Z, 1%Q)]) 2 2 = None.
Proof.
  split.
  - apply (proj1 AddEdge_self_loops).
  - apply (proj2 AddEdge_self_loops 0%Z [((1, 2)%Z, 1%Q); ((2, 3)%Z, 1%Q)]).
    repeat constructor; simpl; lia.
Defined.

Lemma build_symmetric_witness :
  symmetric (build 0 [((1, 2)%Z, 1%Q)]) /\ symmetric (AddEdge (NewGraph 0) 1 2 1).
Proof.
  split.
  - apply (proj1 (build_symmetric 0%Z [((1, 2)%Z, 1%Q)])).
  - apply (proj2 (build_symmetric 0%Z [])). intros u v. reflexivity.
Defined.

Lemma SolveTSP_degenerate_witness :
  SolveTSP lcg_Intn range_rot 10 (NewGraph 0) 4 10 8 (fun _ => (stop_after 1, 42%Z, 0)) []
    = Some ([], 0%Q, 0) /\
  exists u, nodes loop7 = [u] /\
    SolveTSP lcg_Intn range_rot 10 loop7 4 10 8 (fun _ => (stop_after 1, 42%Z, 0)) []
    = Some ([u], 0%Q, 1).
Proof.
  split.
  - apply (proj1 (SolveTSP_degenerate lcg_Intn range_rot (NewGraph 0))). reflexivity.
  - destruct (proj2 (SolveTSP_degenerate lcg_Intn range_rot loop7)) as (u & Hu & H);
      [vm_compute; reflexivity|].
    exists u. split; [exact Hu|apply H].
Defined.

(** On [two_edges] every construction fails, and the two workers retry
    until their deadline; on [square] a tour exists but the deadline has
    passed before the first attempt (a time limit of 0). *)
Lemma SolveTSP_no_tour_completed_witness :
  SolveTSP lcg_Intn range_rot 10 two_edges 2 10 2
    (fun i => (stop_after 5, (7 + Z.of_nat i)%Z, i)) [0; 1] = Some ([], 0%Q, 0) /\
  SolveTSP lcg_Intn range_rot 10 square 1 0 1
    (fun _ => (stop_after 0, 42%Z, 0)) [] = Some ([], 0%Q, 0).
Proof.
  split.
  - apply (SolveTSP_no_tour_completed lcg_Intn range_rot 10 two_edges 2 10 2
             (fun i => (stop_after 5, (7 + Z.of_nat i)%Z, i)) [0; 1] [[]; []]).
    + vm_compute. discriminate.
    + vm_compute. reflexivity.
    + repeat constructor.
  - apply (SolveTSP_no_tour_completed lcg_Intn range_rot 10 square 1 0 1
             (fun _ => (stop_after 0, 42%Z, 0)) [] [[]]).
    + vm_compute. discriminate.
    + vm_compute. reflexivity.
    + repeat constructor.
Defined.

(** A one-node graph is special-cased: no worker runs (here none is
    requested, so none can complete a tour), yet [SolveTSP] returns the
    node itself with cost 0 and count 1, not the empty tour. *)
Lemma SolveTSP_one_node_no_worker_counterexample :
  mapM (fun i => let '(done, rng, it) := (fun _ : nat => (stop_after 1, 42%Z, 0)) i in
                 worker lcg_Intn range_rot 10 loop7 (NodeCount loop7) done 0 rng it)
       (seq 0 (Z.to_nat (Z.min 1 0))) = Some [] /\
  SolveTSP lcg_Intn range_rot 10 loop7 0 1 1 (fun _ => (stop_after 1, 42%Z, 0)) []
    = Some ([7%Z], 0%Q, 1).
Proof. split; vm_compute; reflexivity. Qed.

Lemma SolveTSP_no_workers_witness :
  SolveTSP lcg_Intn range_rot 10 square 0 10 8 (fun _ => (stop_after 3, 42%Z, 0)) [0; 0]
    = Some ([], 0%Q, 0).
Proof.
  apply (SolveTSP_no_workers lcg_Intn range_rot 10 square 0 10 8
           (fun _ => (stop_after 3, 42%Z, 0)) [0; 0]).
  - vm_compute. lia.
  - lia.
Defined.

(* ================================================================= *)
(** ** Further properties of the code *)

(* ----------------------------------------------------------------- *)
(** *** The graph *)

Lemma build_snoc n es f t w :
  build n (es ++ [(f, t, w)]) = AddEdge (build n es) f t w.
Proof. unfold build. by rewrite fold_left_app. Qed.

(** X1: [AddEdge(a, b, w)] then a lookup: the pair [{a, b}] reads [w] in both
    directions, whatever it held before; every other pair is unchanged. *)
Theorem AddEdge_edge_lookup g a b w u v :
  edge (AddEdge g a b w) u v =
  if decide ((u = a /\ v = b) \/ (u = b /\ v = a)) then Some w else edge g u v.
Proof. apply edge_AddEdge. Qed.

(** X2: The weight a built graph stores for [u]–[v] is the weight of the last
    [AddEdge] call on that pair, in either orientation; no call on it
    means no edge. *)
Theorem build_edge_last_write n es u v :
  edge (build n es) u v =
  match List.find (fun e : Z * Z * Q =>
                     bool_decide ((e.1.1 = u /\ e.1.2 = v) \/ (e.1.1 = v /\ e.1.2 = u)))
                  (rev es) with
  | Some e => Some e.2
  | None => None
  end.
Proof.
  induction es as [|[[f t] w] es IH] using rev_ind; [reflexivity|].
  rewrite build_snoc, edge_AddEdge, rev_app_distr. simpl.
  case_bool_decide as H1; case_decide as H2; try done; exfalso.
  - destruct H1 as [[-> ->]|[-> ->]]; tauto.
  - destruct H2 as [[-> ->]|[-> ->]]; tauto.
Qed.

(** X3: The node list of a built graph holds each endpoint of the [AddEdge]
    calls exactly once and nothing else, so [NodeCount] is the number of
    distinct endpoints. *)
Theorem build_nodes_endpoints n es :
  NoDup (nodes (build n es)) /\
  forall u, u ∈ nodes (build n es) <-> exists e, e ∈ es /\ (u = e.1.1 \/ u = e.1.2).
Proof.
  split; [apply (wf_nodup _ (build_wf n es))|].
  induction es as [|[[f t] w] es IH] using rev_ind; intros u.
  - split; [intros H; inversion H|intros (e & He & _); inversion He].
  - rewrite build_snoc, elem_of_nodes_AddEdge by apply build_wf. rewrite IH.
    split.
    + intros [(e & He & Hu)|[->| ->]].
      * exists e. split; [apply elem_of_app; by left|done].
      * exists (f, t, w). split; [apply elem_of_app; right; by left|by left].
      * exists (f, t, w). split; [apply elem_of_app; right; by left|by right].
    + intros (e & He & Hu). apply elem_of_app in He as [He|He].
      * left. by exists e.
      * apply list_elem_of_singleton in He. subst e. simpl in Hu. tauto.
Qed.

Lemma EdgeCount_fold_insert (m : gmap Z (gmap Z Q)) k v :
  map_fold (fun _ (nbrs : gmap Z Q) count => count + size nbrs) 0 (<[k := v]> m)
  + size (default ∅ (m !! k)) =
  map_fold (fun _ (nbrs : gmap Z Q) count => count + size nbrs) 0 m + size v.
Proof.
  set (F := fun (_ : Z) (nbrs : gmap Z Q) count => count + size nbrs).
  assert (Hins : forall m' k' v', m' !! k' = None ->
            map_fold F 0 (<[k' := v']> m') = map_fold F 0 m' + size v').
  { intros m' k' v' Hk. rewrite map_fold_insert_L; [reflexivity| |done].
    intros. unfold F. lia. }
  destruct (m !! k) as [v0|] eqn:Hk; simpl.
  - rewrite <- insert_delete_eq.
    rewrite Hins by apply lookup_delete_eq.
    rewrite <- (insert_delete_id m k v0 Hk) at 2.
    rewrite Hins by apply lookup_delete_eq. lia.
  - rewrite Hins by done. rewrite map_size_empty. lia.
Qed.

(** X4: [EdgeCount] counts each stored direction: an [AddEdge] call on a new
    pair of distinct nodes adds 2, on a new self-loop adds 1, and on a
    pair already stored adds nothing (the weight is overwritten). *)
Theorem EdgeCount_AddEdge g a b w :
  symmetric g ->
  EdgeCount (AddEdge g a b w) =
  EdgeCount g + match edge g a b with
                | Some _ => 0
                | None => if decide (a = b) then 1 else 2
                end.
Proof.
  intros Hs.
  assert (Hft : edge g a b = edge g (Z.max a b) (Z.min a b)).
  { destruct (Z.le_ge_cases a b) as [Hab|Hab].
    - rewrite Z.max_r, Z.min_l by lia. apply Hs.
    - rewrite Z.max_l, Z.min_r by lia. reflexivity. }
  rewrite Hft.
  replace (if decide (a = b) then 1 else 2)
    with (if decide (Z.max a b = Z.min a b) then 1 else 2)
    by (repeat case_decide; lia).
  unfold EdgeCount, AddEdge. cbv zeta.
  generalize (Z.max a b) (Z.min a b). intros f t. cbn [edges].
  set (F := fun (_ : Z) (nbrs : gmap Z Q) count => count + size nbrs).
  assert (Hreg : forall g0 x, map_fold F 0 (edges (register g0 x)) = map_fold F 0 (edges g0)).
  { intros g0 x. unfold register. destruct (edges g0 !! x) eqn:Ex; [done|]. cbn [edges].
    pose proof (EdgeCount_fold_insert (edges g0) x ∅) as H. rewrite Ex in H. simpl in H.
    rewrite map_size_empty in H. unfold F. lia. }
  assert (H2 : map_fold F 0 (edges (register (register g f) t)) = map_fold F 0 (edges g))
    by (by rewrite !Hreg).
  assert (Hn2 : forall u, neighbors (register (register g f) t) u = neighbors g u)
    by (intros u; by rewrite !neighbors_register).
  rewrite Hn2. unfold edge.
  generalize dependent (register (register g f) t). intros g2 H2 Hn2.
  pose proof (EdgeCount_fold_insert (edges g2) f (<[t := w]> (neighbors g f))) as E3.
  fold F in E3. rewrite H2 in E3.
  change (default ∅ (edges g2 !! f)) with (neighbors g2 f) in E3.
  rewrite Hn2 in E3.
  destruct (decide (f = t)) as [<-|Eft].
  - rewrite lookup_insert_eq. simpl. rewrite insert_insert_eq.
    rewrite insert_insert_eq.
    destruct (neighbors g f !! f) eqn:Ef.
    + rewrite map_size_insert_Some in E3 by done. lia.
    + rewrite map_size_insert_None in E3 by done. lia.
  - rewrite lookup_insert_ne by congruence.
    change (default ∅ (edges g2 !! t)) with (neighbors g2 t). rewrite Hn2.
    set (e3 := <[f := <[t := w]> (neighbors g f)]> (edges g2)).
    pose proof (EdgeCount_fold_insert e3 t (<[f := w]> (neighbors g t))) as E4.
    fold F in E4.
    unfold e3 in E4 at 2. rewrite lookup_insert_ne in E4 by congruence.
    change (default ∅ (edges g2 !! t)) with (neighbors g2 t) in E4. rewrite Hn2 in E4.
    assert (Htf : neighbors g t !! f = neighbors g f !! t)
      by (change (edge g t f = edge g f t); apply Hs).
    destruct (neighbors g f !! t) eqn:Ef.
    + rewrite map_size_insert_Some in E3 by done.
      fold e3 in E3. rewrite map_size_insert_Some in E4 by eauto. lia.
    + rewrite map_size_insert_None in E3 by done.
      fold e3 in E3. rewrite map_size_insert_None in E4 by done. lia.
Qed.

Lemma EdgeCount_AddEdge_witness :
  symmetric square /\ EdgeCount (AddEdge square 5 1 3) = 14%nat.
Proof.
  split; [exact square_symmetric|].
  rewrite (EdgeCount_AddEdge square 5 1 3 square_symmetric). vm_compute. reflexivity.
Defined.

(* ----------------------------------------------------------------- *)
(** *** reverse *)

(** X5: [reverse(path, i, j)] with [j] in range reverses the segment
    [path[i..j]] in place and leaves the rest of the slice alone; when
    [i >= j] the loop does not run and nothing changes. *)
Theorem reverse_segment p i j :
  j < length p ->
  reverse p i j =
  if decide (i <= j) then take i p ++ rev (take (S j - i) (drop i p)) ++ drop (S j) p
  else p.
Proof.
  intros Hj. case_decide as Hij.
  - pose proof (take_drop i p) as H1.
    pose proof (take_drop (S j - i) (drop i p)) as H2.
    assert (HA : length (take i p) = i) by (rewrite length_take; lia).
    assert (HM : length (take (S j - i) (drop i p)) = S j - i)
      by (rewrite length_take, length_drop; lia).
    rewrite <- H2 in H1.
    replace (drop (S j) p) with (drop (S j - i) (drop i p))
      by (rewrite drop_drop; f_equal; lia).
    rewrite <- H1 at 1.
    set (A := take i p) in *. set (M := take (S j - i) (drop i p)) in *.
    set (B := drop (S j - i) (drop i p)) in *.
    rewrite <- (reverse_app A M B). f_equal; lia.
  - unfold reverse. replace (j - i) with 0 by lia. reflexivity.
Qed.

Lemma reverse_segment_witness :
  reverse [10; 20; 30; 40; 50]%Z 1 3 = [10; 40; 30; 20; 50]%Z.
Proof. rewrite (reverse_segment [10; 20; 30; 40; 50]%Z 1 3) by (simpl; lia). reflexivity. Defined.

(* ----------------------------------------------------------------- *)
(** *** twoOpt: what a run keeps *)

Lemma twoOpt_pair_head g size i j q d b :
  i + 2 <= j -> j < size -> length q = size ->
  (twoOpt_pair g size i j (q, d, b)).1.1 !! 0 = q !! 0.
Proof.
  intros Hij Hj Hlen.
  destruct (twoOpt_pair_cases g size i j q d b) as [->|[dl [_ ->]]]; simpl; [done|].
  destruct (split_pair q i j Hij ltac:(lia)) as (A & u1 & v1 & M & u2 & B & -> & HA & HjM).
  subst i j. replace (length A + 1 + 1) with (length A + 2) by lia.
  rewrite reverse_2opt. by destruct A.
Qed.

(** X6: [twoOpt] returns a reordering of the tour it was given: it only ever
    reverses segments of the slice in place. *)
Theorem twoOpt_permutation fuel path cost g done t p' c' t' :
  twoOpt fuel path cost g done t = Some (p', c', t') -> p' ≡ₚ path.
Proof. apply twoOpt_perm. Qed.

(** X7: [twoOpt] never moves the node at position 0: every reversal starts at
    position [i + 1 >= 1]. *)
Theorem twoOpt_keeps_start fuel path cost g done t p' c' t' :
  twoOpt fuel path cost g done t = Some (p', c', t') -> p' !! 0 = path !! 0.
Proof.
  intros Hrun. unfold twoOpt in Hrun.
  enough (length p' = length path /\ p' !! 0 = path !! 0) by tauto.
  eapply (twoOpt_loop_invariant (fun q _ => length q = length path /\ q !! 0 = path !! 0));
    [|done|exact Hrun].
  intros q d Hq.
  apply (twoOpt_sweep_invariant (fun q _ => length q = length path /\ q !! 0 = path !! 0));
    [|done].
  intros i j q' d' b Hij Hj [Hl H0]. split.
  - by rewrite twoOpt_pair_length.
  - rewrite twoOpt_pair_head; [done|lia|lia|lia].
Qed.

(** X8: A tour of at most three nodes is returned as it was, with its cost:
    the only pair [j >= i + 2] is [(0, 2)] of a triangle, which the loop
    skips. *)
Theorem twoOpt_short_tour_unchanged fuel path cost g done t p' c' t' :
  length path <= 3 ->
  twoOpt fuel path cost g done t = Some (p', c', t') -> p' = path /\ c' = cost.
Proof.
  intros Hlen Hrun. unfold twoOpt in Hrun.
  eapply (twoOpt_loop_invariant (fun q d => q = path /\ d = cost)); [|done|exact Hrun].
  intros q d Hq.
  apply (twoOpt_sweep_invariant (fun q d => q = path /\ d = cost)); [|done].
  intros i j q' d' b Hij Hj Hqd. unfold twoOpt_pair. rewrite decide_True by lia. done.
Qed.

Lemma twoOpt_permutation_witness : [1; 2; 3; 4]%Z ≡ₚ [1; 3; 2; 4]%Z.
Proof.
  apply (twoOpt_permutation 10 [1; 3; 2; 4]%Z 6%Q square (fun _ => false) 0
           [1; 2; 3; 4]%Z (6 + -2)%Q 2).
  vm_compute. reflexivity.
Defined.

Lemma twoOpt_keeps_start_witness : [1; 2; 3; 4]%Z !! 0 = [1; 3; 2; 4]%Z !! 0.
Proof.
  apply (twoOpt_keeps_start 10 [1; 3; 2; 4]%Z 6%Q square (fun _ => false) 0
           [1; 2; 3; 4]%Z (6 + -2)%Q 2).
  vm_compute. reflexivity.
Defined.

Lemma twoOpt_short_tour_unchanged_witness :
  twoOpt 5 [1; 3; 2]%Z 4%Q square (fun _ => false) 0 = Some ([1; 3; 2]%Z, 4%Q, 1) /\
  [1; 3; 2]%Z = [1; 3; 2]%Z /\ 4%Q = 4%Q.
Proof.
  split; [vm_compute; reflexivity|].
  apply (twoOpt_short_tour_unchanged 5 [1; 3; 2]%Z 4%Q square (fun _ => false) 0
           [1; 3; 2]%Z 4%Q 1).
  - simpl. lia.
  - vm_compute. reflexivity.
Defined.

(* ----------------------------------------------------------------- *)
(** *** Tours use stored edges only *)

Lemma path_edges_cons2 g a b l :
  path_edges g (a :: b :: l) =
  match edge g a b with Some _ => path_edges g (b :: l) | None => false end.
Proof. reflexivity. Qed.

Lemma path_edges_app g l1 x l2 :
  path_edges g (l1 ++ x :: l2) = path_edges g (l1 ++ [x]) && path_edges g (x :: l2).
Proof.
  induction l1 as [|a l1 IH].
  - reflexivity.
  - destruct l1 as [|b l1].
    + simpl. destruct (edge g a x); reflexivity.
    + change ((a :: b :: l1) ++ x :: l2) with (a :: b :: (l1 ++ x :: l2)).
      change ((a :: b :: l1) ++ [x]) with (a :: b :: (l1 ++ [x])).
      rewrite !path_edges_cons2.
      change (b :: l1 ++ x :: l2) with ((b :: l1) ++ x :: l2). rewrite IH.
      destruct (edge g a b); reflexivity.
Qed.

Lemma path_edges_rev g l : symmetric g -> path_edges g (rev l) = path_edges g l.
Proof.
  intros Hs. induction l as [|x l IH]; [reflexivity|].
  destruct l as [|y l]; [reflexivity|].
  change (rev (x :: y :: l)) with ((rev l ++ [y]) ++ [x]).
  rewrite <- app_assoc. simpl. rewrite path_edges_app.
  change (rev l ++ [y]) with (rev (y :: l)). rewrite IH.
  rewrite path_edges_cons2. simpl. rewrite (Hs y x).
  destruct (edge g x y); [apply andb_true_r|apply andb_false_r].
Qed.

Lemma path_edges_snoc g l a b :
  last l = Some a ->
  path_edges g (l ++ [b]) = path_edges g l && match edge g a b with Some _ => true | None => false end.
Proof.
  intros Hl. apply last_Some in Hl as [l' ->].
  rewrite <- app_assoc. simpl. rewrite path_edges_app. reflexivity.
Qed.

Lemma path_edges_2opt g X u1 v1 M u2 v2 C :
  symmetric g -> is_Some (edge g u1 u2) -> is_Some (edge g v1 v2) ->
  path_edges g (X ++ u1 :: v1 :: M ++ u2 :: v2 :: C) = true ->
  path_edges g (X ++ u1 :: u2 :: rev M ++ v1 :: v2 :: C) = true.
Proof.
  intros Hs [w1 E1] [w2 E2].
  rewrite (path_edges_app g X u1 (v1 :: M ++ u2 :: v2 :: C)),
    (path_edges_app g X u1 (u2 :: rev M ++ v1 :: v2 :: C)).
  intros [HX H]%andb_true_iff.
  apply andb_true_iff. split; [done|].
  rewrite path_edges_cons2 in H |- *. rewrite E1.
  destruct (edge g u1 v1); [|done].
  change (v1 :: M ++ u2 :: v2 :: C) with ((v1 :: M) ++ u2 :: v2 :: C) in H.
  rewrite (path_edges_app g (v1 :: M) u2 (v2 :: C)) in H. apply andb_true_iff in H as [HM HC].
  change (u2 :: rev M ++ v1 :: v2 :: C) with ((u2 :: rev M) ++ v1 :: v2 :: C).
  rewrite (path_edges_app g (u2 :: rev M) v1 (v2 :: C)). apply andb_true_iff. split.
  - rewrite <- (path_edges_rev g ((v1 :: M) ++ [u2])) in HM by done.
    rewrite rev_app_distr in HM. exact HM.
  - rewrite path_edges_cons2, E2. rewrite path_edges_cons2 in HC.
    destruct (edge g u2 v2); done.
Qed.

Lemma tour_edges_lookup g q : q <> [] -> tour_edges g q = path_edges g (q ++ [q !!! 0]).
Proof. destruct q; [done|reflexivity]. Qed.

(** A move of [twoOpt] only puts in the two edges it has checked, and
    runs the reversed segment backwards. *)
Lemma twoOpt_pair_edges g size i j q d b :
  symmetric g -> i + 2 <= j -> j < size -> length q = size ->
  tour_edges g q = true -> tour_edges g (twoOpt_pair g size i j (q, d, b)).1.1 = true.
Proof.
  intros Hs Hij Hj Hlen Hq.
  destruct (split_pair q i j Hij ltac:(lia)) as (A & u1 & v1 & M & u2 & B & -> & HA & HjM).
  unfold twoOpt_pair. cbv zeta.
  case_decide; [done|].
  rewrite length_2opt in Hlen.
  replace ((i + 1) mod size) with (length A + 1) by (rewrite Nat.mod_small; lia).
  subst i j. rewrite lookup_2opt_u1, lookup_2opt_v1, lookup_2opt_u2.
  set (hd := (A ++ u1 :: v1 :: M ++ u2 :: B) !!! 0).
  assert (Hv2 : exists v2 C, B ++ [hd] = v2 :: C /\
            (A ++ u1 :: v1 :: M ++ u2 :: B) !!! ((length A + 2 + length M + 1) mod size) = v2).
  { destruct B as [|b0 B'].
    - exists hd, []. split; [done|].
      replace (length A + 2 + length M + 1) with size by (simpl in Hlen; lia).
      rewrite Nat.Div0.mod_same. done.
    - exists b0, (B' ++ [hd]). split; [done|].
      rewrite Nat.mod_small by (simpl in Hlen; lia).
      replace (A ++ u1 :: v1 :: M ++ u2 :: b0 :: B') with ((A ++ u1 :: v1 :: M ++ [u2]) ++ b0 :: B')
        by app_assoc_eq.
      apply list_lookup_total_middle. rewrite length_app. simpl. rewrite length_app. simpl. lia. }
  destruct Hv2 as (v2 & C & HBC & ->).
  destruct (edge g u1 u2) as [wn1|] eqn:E1; [|done].
  destruct (edge g v1 v2) as [wn2|] eqn:E2; [|done].
  destruct (Qltb _ _); [|done]. simpl.
  replace (S (length A + 1)) with (length A + 2) by lia.
  rewrite (reverse_2opt A u1 v1 M u2 B).
  assert (Hhd : (A ++ u1 :: u2 :: rev M ++ v1 :: B) !!! 0 = hd)
    by (unfold hd; destruct A; reflexivity).
  rewrite (tour_edges_lookup g (A ++ u1 :: u2 :: rev M ++ v1 :: B)) by (destruct A; discriminate).
  rewrite (tour_edges_lookup g (A ++ u1 :: v1 :: M ++ u2 :: B)) in Hq by (destruct A; discriminate).
  fold hd in Hq. rewrite Hhd.
  replace ((A ++ u1 :: u2 :: rev M ++ v1 :: B) ++ [hd])
    with (A ++ u1 :: u2 :: rev M ++ v1 :: (B ++ [hd])) by app_assoc_eq.
  replace ((A ++ u1 :: v1 :: M ++ u2 :: B) ++ [hd])
    with (A ++ u1 :: v1 :: M ++ u2 :: (B ++ [hd])) in Hq by app_assoc_eq.
  rewrite HBC in *. apply path_edges_2opt; [done|by eexists|by eexists|done].
Qed.

Lemma twoOpt_edges fuel path cost g done t p' c' t' :
  symmetric g -> tour_edges g path = true ->
  twoOpt fuel path cost g done t = Some (p', c', t') -> tour_edges g p' = true.
Proof.
  intros Hs He Hrun. unfold twoOpt in Hrun.
  enough (length p' = length path /\ tour_edges g p' = true) by tauto.
  eapply (twoOpt_loop_invariant (fun q _ => length q = length path /\ tour_edges g q = true));
    [|done|exact Hrun].
  intros q d Hq.
  apply (twoOpt_sweep_invariant (fun q _ => length q = length path /\ tour_edges g q = true));
    [|done].
  intros i j q' d' b Hij Hj [Hl Hq']. split.
  - by rewrite twoOpt_pair_length.
  - apply twoOpt_pair_edges; [done|lia|lia|lia|done].
Qed.

(** X9: On a graph with symmetric weights, if every edge of the tour given to
    [twoOpt] (the closing one included) is stored, so is every edge of the
    tour it returns. *)
Theorem twoOpt_keeps_tour_edges fuel path cost g done t p' c' t' :
  symmetric g -> tour_edges g path = true ->
  twoOpt fuel path cost g done t = Some (p', c', t') -> tour_edges g p' = true.
Proof. apply twoOpt_edges. Qed.

Lemma twoOpt_keeps_tour_edges_witness : tour_edges square [1; 2; 3; 4]%Z = true.
Proof.
  apply (twoOpt_keeps_tour_edges 10 [1; 3; 2; 4]%Z 6%Q square (fun _ => false) 0
           [1; 2; 3; 4]%Z (6 + -2)%Q 2).
  - exact square_symmetric.
  - vm_compute. reflexivity.
  - vm_compute. reflexivity.
Defined.

Lemma rnn_loop_edges {Rand Iter : Type} (Intn : Rand -> Z -> Z * Rand)
    (range_map : Iter -> gmap Z Q -> list (Z * Q) * Iter)
    (range_map_perm : forall it m, (range_map it m).1 ≡ₚ map_to_list m)
    g iters current path visited cost rng it p c rng' it' :
  last path = Some current -> path_edges g path = true ->
  rnn_loop Intn range_map iters g current path visited cost rng it = (Some (p, c), rng', it') ->
  (exists suffix, p = path ++ suffix) /\ path_edges g p = true.
Proof.
  revert current path visited cost rng it.
  induction iters as [|iters IH]; intros current path visited cost rng it Hlast He; simpl.
  { intros [= -> -> _ _]. split; [exists []; by rewrite app_nil_r|done]. }
  destruct (range_map it (neighbors g current)) as [entries it1] eqn:Er.
  destruct (scan_topK 3 visited entries []) as [|c0 cs] eqn:Es; [discriminate|].
  destruct (Intn rng _) as [idx rng1].
  destruct (index (c0 :: cs) idx) as [[n d]|] eqn:Ei; [|discriminate].
  intros Hrun.
  assert (Hnd_in : (n, d) ∈ scan_topK 3 visited entries []).
  { rewrite Es. unfold index in Ei. destruct (idx <? 0)%Z; [discriminate|].
    by eapply list_elem_of_lookup_2. }
  apply scan_topK_elem in Hnd_in as [Hnil|[Hent _]]; [inversion Hnil|].
  assert (Hed : edge g current n = Some d).
  { unfold edge. apply elem_of_map_to_list.
    pose proof (range_map_perm it (neighbors g current)) as Hp. rewrite Er in Hp. simpl in Hp.
    by rewrite <- Hp. }
  destruct (IH n (path ++ [n]) ({[n]} ∪ visited) (cost + d)%Q rng1 it1)
    as ([suf Hsuf] & Hp'); [apply last_snoc| |exact Hrun|].
  - rewrite (path_edges_snoc g path current n Hlast), He, Hed. reflexivity.
  - split; [exists (n :: suf); by rewrite Hsuf, <- app_assoc|done].
Qed.

Lemma rnn_tour_edges {Rand Iter : Type} (Intn : Rand -> Z -> Z * Rand)
    (range_map : Iter -> gmap Z Q -> list (Z * Q) * Iter)
    (range_map_perm : forall it m, (range_map it m).1 ≡ₚ map_to_list m)
    startNode numNodes g rng it p c rng' it' :
  randomizedNearestNeighbor Intn range_map startNode numNodes g rng it = (Some (p, c), rng', it') ->
  p !! 0 = Some startNode /\ tour_edges g p = true.
Proof.
  unfold randomizedNearestNeighbor.
  destruct (rnn_loop Intn range_map (numNodes - 1) g startNode [startNode] {[startNode]} 0%Q rng it)
    as [[[[path cost]|] rng1] it1] eqn:Er; [|discriminate].
  destruct (rnn_loop_edges Intn range_map range_map_perm g (numNodes - 1) startNode [startNode]
              {[startNode]} 0%Q rng it path cost rng1 it1) as ([suf ->] & He);
    [done|done|exact Er|].
  destruct (last ([startNode] ++ suf)) as [lst|] eqn:El; [|done]. cbn [head app].
  destruct (edge g lst startNode) as [w|] eqn:Ew; [|done].
  intros [= <- _ _ _]. split; [done|].
  unfold tour_edges.
  change ((startNode :: suf) ++ [startNode]) with (([startNode] ++ suf) ++ [startNode]).
  rewrite (path_edges_snoc g _ lst startNode El), He, Ew. reflexivity.
Qed.

(** X10: A tour built by [randomizedNearestNeighbor] starts at [startNode],
    and each of its steps, as well as the closing step back to
    [startNode], follows an edge stored in the graph. *)
Theorem randomizedNearestNeighbor_tour_edges {Rand Iter : Type} (Intn : Rand -> Z -> Z * Rand)
    (range_map : Iter -> gmap Z Q -> list (Z * Q) * Iter)
    (range_map_perm : forall it m, (range_map it m).1 ≡ₚ map_to_list m)
    startNode numNodes g rng it p c rng' it' :
  randomizedNearestNeighbor Intn range_map startNode numNodes g rng it = (Some (p, c), rng', it') ->
  p !! 0 = Some startNode /\ tour_edges g p = true.
Proof. by apply rnn_tour_edges. Qed.

Lemma randomizedNearestNeighbor_tour_edges_witness :
  [1; 3; 2; 4]%Z !! 0 = Some 1%Z /\ tour_edges square [1; 3; 2; 4]%Z = true.
Proof.
  apply (randomizedNearestNeighbor_tour_edges lcg_Intn range_rot range_rot_perm 1%Z 4 square
           42%Z 0 [1; 3; 2; 4]%Z 6%Q 1000676753%Z 0).
  vm_compute. reflexivity.
Defined.

(** X11: Every tour [SolveTSP] returns for a graph built by [AddEdge] follows
    stored edges only, the closing edge from its last node back to its
    first included (for a one-node graph that edge is the node's
    self-loop). *)
Theorem SolveTSP_tour_edges {Rand Iter : Type} (Intn : Rand -> Z -> Z * Rand)
    (range_map : Iter -> gmap Z Q -> list (Z * Q) * Iter)
    (range_map_perm : forall it m, (range_map it m).1 ≡ₚ map_to_list m)
    nCount es fuel maxCPU maxSeconds numCPU env sched p c k :
  SolveTSP Intn range_map fuel (build nCount es) maxCPU maxSeconds numCPU env sched
    = Some (p, c, k) ->
  tour_edges (build nCount es) p = true.
Proof.
  pose proof (build_wf nCount es) as Hwf. set (g := build nCount es) in *.
  intros Hrun.
  destruct (decide (p = [])) as [->|Hp]; [done|].
  destruct (decide (NodeCount g = 0)) as [H0|H0].
  { unfold SolveTSP in Hrun. rewrite decide_True in Hrun by done.
    injection Hrun as <- _ _. done. }
  destruct (decide (NodeCount g = 1)) as [H1|H1].
  { unfold SolveTSP in Hrun. rewrite decide_False in Hrun by done.
    rewrite decide_True in Hrun by done. injection Hrun as <- _ _.
    destruct (NodeCount_one g H1) as [u Hu].
    destruct (one_node_self_loop g u Hwf Hu) as [w Hw].
    rewrite Hu. simpl. rewrite Hw. reflexivity. }
  apply (SolveTSP_attempt Intn range_map (fun pc => tour_edges g pc.1 = true)
           fuel g maxCPU maxSeconds numCPU env sched p c k); [lia| | |done|done].
  - intros s r i q d r' i' _ Hr.
    by edestruct (rnn_tour_edges Intn range_map range_map_perm)
      as (_ & He); [exact Hr|].
  - intros f q d dn t0 q' d' t' He Ho. simpl in *.
    eapply twoOpt_edges; [apply (wf_sym _ Hwf)|exact He|exact Ho].
Qed.

Lemma SolveTSP_tour_edges_witness : tour_edges square [2; 1; 4; 3]%Z = true.
Proof.
  apply (SolveTSP_tour_edges lcg_Intn range_rot range_rot_perm 4
           [((1, 2)%Z, 1%Q); ((2, 3)%Z, 1%Q); ((3, 4)%Z, 1%Q); ((4, 1)%Z, 1%Q);
            ((1, 3)%Z, 2%Q); ((2, 4)%Z, 2%Q)]
           20 1 1 1 (fun _ => (stop_after 3, 42%Z, 0)) [] [2; 1; 4; 3]%Z 4%Q 1).
  vm_compute. reflexivity.
Defined.

(* ----------------------------------------------------------------- *)
(** *** SolveTSP: the count and the best attempt *)

Lemma interleave_perm {A} (sched : list nat) (qs : list (list A)) :
  interleave sched qs ≡ₚ concat qs.
Proof.
  revert qs. induction sched as [|w sched IH]; intros qs; simpl; [done|].
  destruct (qs !! w) as [[|a q]|] eqn:Ew; [apply IH| |apply IH].
  rewrite IH.
  assert (Hw : w < length qs) by (apply lookup_lt_is_Some; eauto).
  rewrite <- (take_drop_middle qs w (a :: q) Ew) at 2.
  rewrite insert_take_drop by done.
  rewrite !concat_app. simpl. apply Permutation_middle.
Qed.

Lemma fold_record_min l bp bc n p' c' n' :
  fold_left record l (bp, bc, n) = (p', c', n') ->
  (c' <= bc)%Q /\ forall a, a ∈ l -> (c' <= a.2)%Q.
Proof.
  revert bp bc n. induction l as [|[q d] l IH]; intros bp bc n; simpl.
  - intros [= _ -> _]. split; [apply Qle_refl|]. intros a Ha. inversion Ha.
  - destruct (Qltb d bc) eqn:E; intros Hf; destruct (IH _ _ _ Hf) as [H1 H2].
    + apply Qltb_spec in E. split; [lra|].
      intros a Ha. apply elem_of_cons in Ha as [->|Ha]; [done|by apply H2].
    + apply Qltb_false in E. split; [done|].
      intros a Ha. apply elem_of_cons in Ha as [->|Ha]; [simpl; lra|by apply H2].
Qed.

Lemma fold_record_some l p c n : exists p', (fold_left record l (Some p, c, n)).1.1 = Some p'.
Proof.
  revert p c n. induction l as [|[q d] l IH]; intros p c n; simpl; [eauto|].
  destruct (Qltb d c); apply IH.
Qed.

Lemma fold_record_none l bc n c' n' :
  fold_left record l (None, bc, n) = (None, c', n') ->
  c' = bc /\ forall a, a ∈ l -> (bc <= a.2)%Q.
Proof.
  revert n. induction l as [|[q d] l IH]; intros n; simpl.
  - intros [= -> _]. split; [done|]. intros a Ha. inversion Ha.
  - destruct (Qltb d bc) eqn:E; intros Hf.
    + destruct (fold_record_some l q d (S n)) as [p' Hp']. rewrite Hf in Hp'. discriminate.
    + apply Qltb_false in E. destruct (IH _ Hf) as [H1 H2]. split; [done|].
      intros a Ha. apply elem_of_cons in Ha as [->|Ha]; [done|by apply H2].
Qed.

Lemma SolveTSP_fold {Rand Iter : Type} (Intn : Rand -> Z -> Z * Rand)
    (range_map : Iter -> gmap Z Q -> list (Z * Q) * Iter)
    fuel g maxCPU maxSeconds numCPU env sched qs p c k :
  2 <= NodeCount g ->
  mapM (fun i => let '(done, rng, it) := env i in
                 worker Intn range_map fuel g (NodeCount g) done 0 rng it)
       (seq 0 (Z.to_nat (Z.min numCPU maxCPU))) = Some qs ->
  SolveTSP Intn range_map fuel g maxCPU maxSeconds numCPU env sched = Some (p, c, k) ->
  exists bp bc, fold_left record (interleave sched qs) (None, MaxFloat64, 0) = (bp, bc, k) /\
    match bp with Some q => p = q /\ c = bc | None => p = [] /\ c = 0%Q end.
Proof.
  intros Hn Hm Hrun. unfold SolveTSP in Hrun.
  rewrite decide_False in Hrun by lia. rewrite decide_False in Hrun by lia.
  rewrite Hm in Hrun.
  destruct (fold_left record (interleave sched qs) (None, MaxFloat64, 0))
    as [[[bp|] bc] tc] eqn:Ef; injection Hrun as <- <- <-;
    (eexists _, _; split; [reflexivity|]); simpl; auto.
Qed.

(** X12: With at least two nodes, the [totalCycles] that [SolveTSP] returns
    is the number of attempts the workers completed: every attempt that
    reached the critical section is counted once, whatever the order in
    which the workers entered it. *)
Theorem SolveTSP_counts_attempts {Rand Iter : Type} (Intn : Rand -> Z -> Z * Rand)
    (range_map : Iter -> gmap Z Q -> list (Z * Q) * Iter)
    fuel g maxCPU maxSeconds numCPU env sched qs p c k :
  2 <= NodeCount g ->
  mapM (fun i => let '(done, rng, it) := env i in
                 worker Intn range_map fuel g (NodeCount g) done 0 rng it)
       (seq 0 (Z.to_nat (Z.min numCPU maxCPU))) = Some qs ->
  SolveTSP Intn range_map fuel g maxCPU maxSeconds numCPU env sched = Some (p, c, k) ->
  k = length (concat qs).
Proof.
  intros Hn Hm Hrun.
  destruct (SolveTSP_fold Intn range_map fuel g maxCPU maxSeconds numCPU env sched qs p c k
              Hn Hm Hrun) as (bp & bc & Hf & _).
  pose proof (fold_record_count (interleave sched qs) (None, MaxFloat64, 0)) as Hc.
  rewrite Hf in Hc. simpl in Hc. rewrite Hc. by rewrite (interleave_perm sched qs).
Qed.

(** X13: With at least two nodes, [SolveTSP] returns the cheapest of the
    attempts the workers completed, at a cost no attempt undercuts; it
    returns the empty tour with cost 0 only when no attempt cost less
    than [math.MaxFloat64] (in particular when there was no attempt). *)
Theorem SolveTSP_best_attempt {Rand Iter : Type} (Intn : Rand -> Z -> Z * Rand)
    (range_map : Iter -> gmap Z Q -> list (Z * Q) * Iter)
    fuel g maxCPU maxSeconds numCPU env sched qs p c k :
  2 <= NodeCount g ->
  mapM (fun i => let '(done, rng, it) := env i in
                 worker Intn range_map fuel g (NodeCount g) done 0 rng it)
       (seq 0 (Z.to_nat (Z.min numCPU maxCPU))) = Some qs ->
  SolveTSP Intn range_map fuel g maxCPU maxSeconds numCPU env sched = Some (p, c, k) ->
  ((p, c) ∈ concat qs /\ forall a, a ∈ concat qs -> (c <= a.2)%Q) \/
  (p = [] /\ c = 0%Q /\ forall a, a ∈ concat qs -> (MaxFloat64 <= a.2)%Q).
Proof.
  intros Hn Hm Hrun.
  destruct (SolveTSP_fold Intn range_map fuel g maxCPU maxSeconds numCPU env sched qs p c k
              Hn Hm Hrun) as (bp & bc & Hf & Hres).
  destruct bp as [q|].
  - destruct Hres as [-> ->]. left.
    destruct (fold_record_best _ _ _ _ _ Hf) as [[H _]|Hin]; [discriminate|].
    destruct (fold_record_min _ _ _ _ _ _ _ Hf) as [_ Hmin].
    split; [by rewrite <- (interleave_perm sched qs)|].
    intros a Ha. apply Hmin. by rewrite (interleave_perm sched qs).
  - destruct Hres as [-> ->]. right. split; [done|split; [done|]].
    destruct (fold_record_none _ _ _ _ _ Hf) as [_ Hmin].
    intros a Ha. apply Hmin. by rewrite (interleave_perm sched qs).
Qed.

Lemma SolveTSP_counts_attempts_witness :
  SolveTSP lcg_Intn range_rot 20 pentagon 2 1 2
    (fun i => (stop_after 6, (7 + Z.of_nat i)%Z, 1)) [1; 1; 0]
    = Some ([1; 5; 4; 3; 2]%Z, 5%Q, 5) /\
  5 = length (concat [[([1; 5; 4; 3; 2]%Z, 5%Q); ([4; 3; 2; 1; 5]%Z, 5%Q)];
                      [([1; 5; 4; 3; 2]%Z, 5%Q); ([4; 3; 2; 1; 5]%Z, 5%Q);
                       ([3; 2; 4; 5; 1]%Z, 7%Q)]]).
Proof.
  split; [vm_compute; reflexivity|].
  apply (SolveTSP_counts_attempts lcg_Intn range_rot 20 pentagon 2 1 2
           (fun i => (stop_after 6, (7 + Z.of_nat i)%Z, 1)) [1; 1; 0]
           [[([1; 5; 4; 3; 2]%Z, 5%Q); ([4; 3; 2; 1; 5]%Z, 5%Q)];
            [([1; 5; 4; 3; 2]%Z, 5%Q); ([4; 3; 2; 1; 5]%Z, 5%Q); ([3; 2; 4; 5; 1]%Z, 7%Q)]]
           [1; 5; 4; 3; 2]%Z 5%Q 5).
  - vm_compute. lia.
  - vm_compute. reflexivity.
  - vm_compute. reflexivity.
Defined.

Lemma SolveTSP_best_attempt_witness :
  let atts := concat [[([1; 5; 4; 3; 2]%Z, 5%Q); ([4; 3; 2; 1; 5]%Z, 5%Q)];
                      [([1; 5; 4; 3; 2]%Z, 5%Q); ([4; 3; 2; 1; 5]%Z, 5%Q);
                       ([3; 2; 4; 5; 1]%Z, 7%Q)]] in
  (([1; 5; 4; 3; 2]%Z, 5%Q) ∈ atts /\ forall a, a ∈ atts -> (5 <= a.2)%Q) \/
  ([1; 5; 4; 3; 2]%Z = [] /\ 5%Q = 0%Q /\ forall a, a ∈ atts -> (MaxFloat64 <= a.2)%Q).
Proof.
  apply (SolveTSP_best_attempt lcg_Intn range_rot 20 pentagon 2 1 2
           (fun i => (stop_after 6, (7 + Z.of_nat i)%Z, 1)) [1; 1; 0]
           [[([1; 5; 4; 3; 2]%Z, 5%Q); ([4; 3; 2; 1; 5]%Z, 5%Q)];
            [([1; 5; 4; 3; 2]%Z, 5%Q); ([4; 3; 2; 1; 5]%Z, 5%Q); ([3; 2; 4; 5; 1]%Z, 7%Q)]]
           [1; 5; 4; 3; 2]%Z 5%Q 5).
  - vm_compute. lia.
  - vm_compute. reflexivity.
  - vm_compute. reflexivity.
Defined.

(* ----------------------------------------------------------------- *)
(** *** The candidate scan of randomizedNearestNeighbor *)

Lemma maxDistIdx_loop (topK : list candidate) s n m :
  m < length topK -> s + n <= length topK ->
  (forall i, i < s -> ((nth i topK cand0).2 <= (nth m topK cand0).2)%Q) ->
  let m' := fold_left (fun m i => if Qltb (nth m topK cand0).2 (nth i topK cand0).2 then i else m)
                      (seq s n) m in
  m' < length topK /\ forall i, i < s + n -> ((nth i topK cand0).2 <= (nth m' topK cand0).2)%Q.
Proof.
  revert s m. induction n as [|n IH]; intros s m Hm Hsn Hle; simpl.
  - split; [done|]. intros i Hi. apply Hle. lia.
  - replace (s + S n) with (S s + n) by lia.
    destruct (Qltb (nth m topK cand0).2 (nth s topK cand0).2) eqn:E.
    + apply Qltb_spec in E. apply IH; [lia|lia|].
      intros i Hi. destruct (decide (i = s)) as [->|Hne]; [apply Qle_refl|].
      apply Qlt_le_weak. eapply Qle_lt_trans; [apply Hle; lia|exact E].
    + apply Qltb_false in E. apply IH; [lia|lia|].
      intros i Hi. destruct (decide (i = s)) as [->|Hne]; [exact E|apply Hle; lia].
Qed.

(** [maxDistIdx] finds a candidate of largest distance. *)
Lemma maxDistIdx_spec (topK : list candidate) :
  topK <> [] ->
  maxDistIdx topK < length topK /\
  forall x, x ∈ topK -> (x.2 <= (nth (maxDistIdx topK) topK cand0).2)%Q.
Proof.
  intros Hne. assert (Hl : 0 < length topK) by (destruct topK; [done|simpl; lia]).
  destruct (maxDistIdx_loop topK 1 (length topK - 1) 0) as [Hm Hall]; [lia|lia| |].
  { intros i Hi. replace i with 0 by lia. apply Qle_refl. }
  split; [exact Hm|].
  intros x Hx. apply list_elem_of_lookup in Hx as [i Hi].
  pose proof (lookup_lt_Some _ _ _ Hi) as Hil.
  rewrite <- (nth_lookup_Some topK i cand0 x Hi). apply Hall. unfold candidate in *. lia.
Qed.

Lemma scan_topK_length k visited entries topK :
  length topK <= k ->
  length (scan_topK k visited entries topK) =
  min k (length topK + length (filter (fun e : Z * Q => e.1 ∉ visited) entries)).
Proof.
  revert topK. induction entries as [|[n w] rest IH]; intros topK Hk; simpl.
  - lia.
  - rewrite filter_cons. simpl.
    case_decide as Hv; [rewrite decide_False by tauto; by apply IH|].
    case_decide as Hl; rewrite decide_True by done; simpl.
    + rewrite IH by (rewrite length_app; simpl; lia). rewrite length_app. simpl. lia.
    + destruct (Qltb _ _); rewrite IH; rewrite ?length_insert; lia.
Qed.

(** The invariant of the scan: the entries it has dropped, [X], are at
    least as far as every candidate it keeps. *)
Lemma scan_topK_dropped k visited entries topK (X : list candidate) :
  0 < k -> length topK <= k -> (X <> [] -> length topK = k) ->
  (forall e x, e ∈ X -> x ∈ topK -> (x.2 <= e.2)%Q) ->
  forall e x, (e ∈ X \/ e ∈ topK \/ (e ∈ entries /\ e.1 ∉ visited)) ->
    e ∉ scan_topK k visited entries topK -> x ∈ scan_topK k visited entries topK ->
    (x.2 <= e.2)%Q.
Proof.
  intros Hk. revert topK X. induction entries as [|[n w] rest IH];
    intros topK X Hlen HX Hle e x He Hne Hx; simpl in Hne, Hx.
  - destruct He as [He|[He|[He _]]]; [by apply Hle|done|inversion He].
  - case_decide as Hv.
    { eapply (IH topK X); try done.
      destruct He as [?|[?|[He Hev]]]; [tauto|tauto|].
      apply elem_of_cons in He as [->|He]; [done|tauto]. }
    case_decide as Hl.
    { assert (HX0 : X = []) by (destruct X; [done|]; exfalso; specialize (HX ltac:(done)); lia).
      subst X.
      eapply (IH (topK ++ [(n, w)]) []); try done.
      - rewrite length_app. simpl. lia.
      - intros e' x' He'. inversion He'.
      - destruct He as [He|[He|[He Hev]]]; [inversion He| |].
        + right. left. apply elem_of_app. by left.
        + apply elem_of_cons in He as [->|He].
          * right. left. apply elem_of_app. right. by left.
          * right. right. done. }
    assert (Hfull : length topK = k) by lia.
    assert (HtopK : topK <> []) by (destruct topK; [simpl in Hfull; lia|done]).
    destruct (maxDistIdx_spec topK HtopK) as [Hm Hmax].
    set (m := maxDistIdx topK) in *.
    set (M := nth m topK cand0) in *.
    assert (HMin : M ∈ topK).
    { unfold M. destruct (nth_lookup_or_length topK m cand0) as [Hl'|Hl'];
        [by eapply list_elem_of_lookup_2|lia]. }
    destruct (Qltb w M.2) eqn:E.
    + apply Qltb_spec in E.
      eapply (IH (<[m := (n, w)]> topK) (M :: X)); try done.
      * by rewrite length_insert.
      * intros _. by rewrite length_insert.
      * intros e' x' He' Hx'.
        apply list_elem_of_lookup in Hx' as [i Hi].
        apply list_lookup_insert_Some in Hi as [(_ & <- & _)|(_ & Hi)].
        -- apply elem_of_cons in He' as [->|He']; simpl; [lra|].
           pose proof (Hle _ _ He' HMin). simpl in *. lra.
        -- apply list_elem_of_lookup_2 in Hi.
           apply elem_of_cons in He' as [->|He']; [by apply Hmax|by apply Hle].
      * destruct He as [He|[He|[He Hev]]].
        -- left. by right.
        -- apply list_elem_of_lookup in He as [i Hi].
           destruct (decide (i = m)) as [->|Hne'].
           ++ left. apply elem_of_cons. left. unfold M. symmetry. by apply nth_lookup_Some.
           ++ right. left. apply list_elem_of_lookup_2 with i.
              rewrite list_lookup_insert_ne by done. exact Hi.
        -- apply elem_of_cons in He as [->|He].
           ++ right. left. apply list_elem_of_lookup_2 with m.
              apply list_lookup_insert_eq. exact Hm.
           ++ right. right. done.
    + apply Qltb_false in E.
      eapply (IH topK ((n, w) :: X)); try done.
      * intros e' x' He' Hx'. apply elem_of_cons in He' as [->|He'].
        -- simpl. pose proof (Hmax _ Hx'). lra.
        -- by apply Hle.
      * destruct He as [He|[He|[He Hev]]].
        -- left. by right.
        -- right. by left.
        -- apply elem_of_cons in He as [->|He]; [left; left|right; right; done].
Qed.

(** X14: The candidates [for n, w := range neighbors] leaves in [topK]:
    [min(3, m)] of the [m] unvisited neighbours, each an unvisited entry
    of the map, and no unvisited neighbour that was left out is nearer
    than a candidate that was kept. *)
Theorem scan_topK_nearest visited entries :
  let topK := scan_topK 3 visited entries [] in
  length topK = Nat.min 3 (length (filter (fun e : Z * Q => e.1 ∉ visited) entries)) /\
  (forall x, x ∈ topK -> x ∈ entries /\ x.1 ∉ visited) /\
  (forall e x, e ∈ entries -> e.1 ∉ visited -> e ∉ topK -> x ∈ topK -> (x.2 <= e.2)%Q).
Proof.
  intros topK. split; [|split].
  - unfold topK. rewrite scan_topK_length by (simpl; lia). reflexivity.
  - intros x Hx. apply scan_topK_elem in Hx as [Hx|Hx]; [inversion Hx|exact Hx].
  - intros e x He Hev Hne Hx.
    apply (scan_topK_dropped 3 visited entries [] [] ltac:(lia) ltac:(simpl; lia)
             ltac:(done)) with (e := e); try done.
    + intros e' x' He'. inversion He'.
    + by right; right.
Qed.

Lemma scan_topK_nearest_witness :
  scan_topK 3 {[2%Z]} [(1%Z, 5%Q); (2%Z, 1%Q); (3%Z, 4%Q); (4%Z, 2%Q); (5%Z, 3%Q)] []
    = [(5%Z, 3%Q); (3%Z, 4%Q); (4%Z, 2%Q)] /\
  (4 <= 5)%Q.
Proof.
  split; [vm_compute; reflexivity|].
  destruct (scan_topK_nearest {[2%Z]}
              [(1%Z, 5%Q); (2%Z, 1%Q); (3%Z, 4%Q); (4%Z, 2%Q); (5%Z, 3%Q)]) as (_ & _ & H).
  apply (H (1%Z, 5%Q) (3%Z, 4%Q)).
  - left.
  - simpl. rewrite elem_of_singleton. lia.
  - change (scan_topK 3 {[2%Z]} [(1%Z, 5%Q); (2%Z, 1%Q); (3%Z, 4%Q); (4%Z, 2%Q); (5%Z, 3%Q)] [])
      with [(5%Z, 3%Q); (3%Z, 4%Q); (4%Z, 2%Q)].
    intros Hin. repeat (apply elem_of_cons in Hin as [Hin|Hin]; [by inversion Hin|]).
    inversion Hin.
  - change (scan_topK 3 {[2%Z]} [(1%Z, 5%Q); (2%Z, 1%Q); (3%Z, 4%Q); (4%Z, 2%Q); (5%Z, 3%Q)] [])
      with [(5%Z, 3%Q); (3%Z, 4%Q); (4%Z, 2%Q)].
    right. left.
Defined.

Lemma scan_topK_closer visited entries n d (L : list (Z * Q)) :
  (n, d) ∈ scan_topK 3 visited entries [] -> NoDup L ->
  (forall e, e ∈ L -> e ∈ entries /\ (e.1 ∉ visited) /\ (e.2 < d)%Q) -> length L <= 2.
Proof.
  intros Hnd HL Hall.
  assert (HQ : EqDecision Q).
  { intros [x y] [u v]. unfold Decision.
    destruct (Z.eq_dec x u), (Pos.eq_dec y v); [left; congruence|right; congruence..]. }
  assert (Hsub : forall e, e ∈ (n, d) :: L -> e ∈ scan_topK 3 visited entries []).
  { intros e He. apply elem_of_cons in He as [->|He]; [done|].
    destruct (Hall e He) as (He1 & He2 & He3).
    destruct (decide (e ∈ scan_topK 3 visited entries [])) as [?|Hne]; [done|].
    exfalso.
    pose proof (scan_topK_dropped 3 visited entries [] [] ltac:(lia) ltac:(simpl; lia)
                  ltac:(done) ltac:(intros ? ? Hx; inversion Hx) e (n, d)
                  (or_intror (or_intror (conj He1 He2))) Hne Hnd) as Hle.
    simpl in Hle. lra. }
  assert (HND : NoDup ((n, d) :: L)).
  { constructor; [|done]. intros Hin. destruct (Hall _ Hin) as (_ & _ & Hlt). simpl in Hlt. lra. }
  pose proof (submseteq_length _ _ (NoDup_submseteq _ _ HND Hsub)) as Hs. simpl in Hs.
  rewrite scan_topK_length in Hs by (simpl; lia). lia.
Qed.

Lemma rnn_loop_near {Rand Iter : Type} (Intn : Rand -> Z -> Z * Rand)
    (range_map : Iter -> gmap Z Q -> list (Z * Q) * Iter)
    (range_map_perm : forall it m, (range_map it m).1 ≡ₚ map_to_list m)
    g iters current path visited cost rng it p c rng' it' :
  last path = Some current -> (forall x, x ∈ visited <-> x ∈ path) ->
  rnn_loop Intn range_map iters g current path visited cost rng it = (Some (p, c), rng', it') ->
  (exists suffix, p = path ++ suffix) /\
  forall i, length path <= S i < length p ->
    exists d, edge g (p !!! i) (p !!! (S i)) = Some d /\ (p !!! (S i) ∉ take (S i) p) /\
      length (filter (fun e : Z * Q => (e.1 ∉ take (S i) p) /\ Qltb e.2 d = true)
                (map_to_list (neighbors g (p !!! i)))) <= 2.
Proof.
  revert current path visited cost rng it.
  induction iters as [|iters IH]; intros current path visited cost rng it Hlast Hvis; simpl.
  { intros [= -> -> _ _]. split; [exists []; by rewrite app_nil_r|lia]. }
  destruct (range_map it (neighbors g current)) as [entries it1] eqn:Er.
  destruct (scan_topK 3 visited entries []) as [|c0 cs] eqn:Es; [discriminate|].
  destruct (Intn rng _) as [idx rng1].
  destruct (index (c0 :: cs) idx) as [[n d]|] eqn:Ei; [|discriminate].
  intros Hrun.
  assert (Hnd_in : (n, d) ∈ scan_topK 3 visited entries []).
  { rewrite Es. unfold index in Ei. destruct (idx <? 0)%Z; [discriminate|].
    by eapply list_elem_of_lookup_2. }
  assert (Hperm : entries ≡ₚ map_to_list (neighbors g current)).
  { pose proof (range_map_perm it (neighbors g current)) as Hp. by rewrite Er in Hp. }
  pose proof Hnd_in as Hnd_in'.
  apply scan_topK_elem in Hnd_in' as [Hnil|[Hent Hnv]]; [inversion Hnil|]. simpl in Hnv.
  assert (Hed : edge g current n = Some d).
  { unfold edge. apply elem_of_map_to_list. by rewrite <- Hperm. }
  destruct (IH n (path ++ [n]) ({[n]} ∪ visited) (cost + d)%Q rng1 it1)
    as ([suf Hsuf] & Hnear); [apply last_snoc| |exact Hrun|].
  { intros x. rewrite elem_of_union, elem_of_singleton, elem_of_app, list_elem_of_singleton, Hvis.
    tauto. }
  split; [exists (n :: suf); by rewrite Hsuf, <- app_assoc|].
  intros i Hi.
  rewrite length_app in Hnear. simpl in Hnear.
  destruct (decide (S i = length path)) as [Heq|Hne]; [|apply Hnear; lia].
  assert (Hpi : p !!! i = current).
  { rewrite Hsuf, <- app_assoc. rewrite lookup_total_app_l by lia.
    apply list_lookup_total_correct. rewrite last_lookup in Hlast.
    by replace i with (pred (length path)) by lia. }
  assert (Hpn : p !!! (S i) = n).
  { rewrite Hsuf, <- app_assoc, Heq. apply list_lookup_total_middle. done. }
  assert (Htake : take (S i) p = path).
  { rewrite Hsuf, <- app_assoc. by apply take_app_length'. }
  rewrite Hpi, Hpn, Htake. exists d. split; [exact Hed|]. split; [by rewrite <- Hvis|].
  apply (scan_topK_closer visited entries n d); [exact Hnd_in|apply NoDup_filter, NoDup_map_to_list|].
  intros e He. apply list_elem_of_filter in He as ([He1 He2] & He3).
  split; [by rewrite Hperm|]. split; [by rewrite Hvis|]. by apply Qltb_spec.
Qed.

(** X15: Each step of a tour built by [randomizedNearestNeighbor], from the
    node at position [i] to the node at position [i + 1], follows a
    stored edge of some weight [d] to a node not visited before; and at
    most two neighbours of the node at position [i] that were not
    visited yet are strictly nearer than [d]: the step goes to one of the
    three nearest unvisited neighbours. *)
Theorem randomizedNearestNeighbor_steps {Rand Iter : Type} (Intn : Rand -> Z -> Z * Rand)
    (range_map : Iter -> gmap Z Q -> list (Z * Q) * Iter)
    (range_map_perm : forall it m, (range_map it m).1 ≡ₚ map_to_list m)
    startNode numNodes g rng it p c rng' it' :
  randomizedNearestNeighbor Intn range_map startNode numNodes g rng it = (Some (p, c), rng', it') ->
  forall i, S i < length p ->
    exists d, edge g (p !!! i) (p !!! (S i)) = Some d /\ (p !!! (S i) ∉ take (S i) p) /\
      length (filter (fun e : Z * Q => (e.1 ∉ take (S i) p) /\ Qltb e.2 d = true)
                (map_to_list (neighbors g (p !!! i)))) <= 2.
Proof.
  unfold randomizedNearestNeighbor.
  destruct (rnn_loop Intn range_map (numNodes - 1) g startNode [startNode] {[startNode]} 0%Q rng it)
    as [[[[path cost]|] rng1] it1] eqn:Er; [|discriminate].
  destruct (rnn_loop_near Intn range_map range_map_perm g (numNodes - 1) startNode [startNode]
              {[startNode]} 0%Q rng it path cost rng1 it1) as (_ & Hnear);
    [done| |exact Er|].
  { intros x. rewrite elem_of_singleton, list_elem_of_singleton. tauto. }
  destruct (head path), (last path); try discriminate.
  destruct (edge g _ _); [|discriminate].
  intros [= <- _ _ _] i Hi. apply Hnear. simpl. lia.
Qed.

Lemma randomizedNearestNeighbor_steps_witness :
  let p := [1; 3; 2; 4]%Z in
  exists d, edge square (p !!! 1) (p !!! 2) = Some d /\ (p !!! 2 ∉ take 2 p) /\
    length (filter (fun e : Z * Q => (e.1 ∉ take 2 p) /\ Qltb e.2 d = true)
              (map_to_list (neighbors square (p !!! 1)))) <= 2.
Proof.
  apply (randomizedNearestNeighbor_steps lcg_Intn range_rot range_rot_perm 1%Z 4 square
           42%Z 0 [1; 3; 2; 4]%Z 6%Q 1000676753%Z 0).
  - vm_compute. reflexivity.
  - simpl. lia.
Defined.

(** *** Splitting the input into lines *)

Lemma join_lines_app_last ls x y :
  join_lines (ls ++ [x ++ y]) = join_lines (ls ++ [x]) ++ y.
Proof.
  destruct ls as [|l ls]; simpl; [by rewrite !app_nil_r|].
  rewrite !map_app, !concat_app. simpl. rewrite !app_nil_r, <- !app_assoc. done.
Qed.

Lemma join_lines_snoc ls x y :
  join_lines ((ls ++ [x]) ++ [y]) = join_lines (ls ++ [x]) ++ newline :: y.
Proof.
  rewrite <- app_assoc. destruct ls as [|l ls]; simpl.
  - by rewrite !app_nil_r.
  - rewrite !map_app, !concat_app. simpl. rewrite !app_nil_r, <- !app_assoc. done.
Qed.

Lemma split_lines_loop b k :
  k <= length b ->
  let '(lines, start) := fold_left (split_step b) (seq 0 k) ([], 0) in
  start <= k /\
  join_lines (lines ++ [slice b start k]) = take k b /\
  Forall (fun l => newline ∉ l) (lines ++ [slice b start k]) /\
  length lines = length (filter (fun c => c = newline) (take k b)).
Proof.
  induction k as [|k IH]; intros Hk.
  - simpl. split; [lia|]. split; [done|]. split; [|done].
    repeat constructor. unfold slice. simpl. apply not_elem_of_nil.
  - rewrite seq_S, fold_left_app. simpl.
    destruct (fold_left (split_step b) (seq 0 k) ([], 0)) as [lines start] eqn:Ef.
    destruct (IH ltac:(lia)) as (Hs & Hj & Hf & Hc).
    destruct (lookup_lt_is_Some_2 b k ltac:(lia)) as [c Hc'].
    rewrite (take_S_r b k c Hc'). simpl. rewrite Hc'.
    case_decide as Hn.
    + injection Hn as ->.
      assert (Hsl : slice b (S k) (S k) = []) by (unfold slice; by rewrite Nat.sub_diag).
      rewrite Hsl. split; [lia|]. split; [|split].
      * rewrite join_lines_snoc, Hj. done.
      * apply Forall_app; split; [done|]. repeat constructor. apply not_elem_of_nil.
      * rewrite length_app, filter_app, length_app, Hc. simpl.
        lia.
    + assert (Hsl : slice b start (S k) = slice b start k ++ [c]).
      { unfold slice. replace (S k - start) with (S (k - start)) by lia.
        apply take_S_r. rewrite lookup_drop. by replace (start + (k - start)) with k by lia. }
      rewrite Hsl. split; [lia|]. split; [|split].
      * rewrite join_lines_app_last, Hj. done.
      * apply Forall_app in Hf as [Hf1 Hf2]. inversion Hf2 as [|? ? Hl _]; subst.
        apply Forall_app; split; [done|]. constructor; [|constructor].
        rewrite elem_of_app, list_elem_of_singleton. intros [?|?]; [done|]. subst. done.
      * rewrite filter_app, length_app, Hc, filter_cons_False by (intros ->; done).
        simpl. lia.
Qed.

Lemma split_lines_spec b :
  join_lines (split_lines b) = b /\
  Forall (fun l => newline ∉ l) (split_lines b) /\
  length (split_lines b) = S (length (filter (fun c => c = newline) b)).
Proof.
  pose proof (split_lines_loop b (length b) ltac:(lia)) as H.
  unfold split_lines.
  destruct (fold_left (split_step b) (seq 0 (length b)) ([], 0)) as [lines start].
  destruct H as (Hs & Hj & Hf & Hc).
  assert (Hsl : slice b start (length b) = drop start b).
  { unfold slice. apply take_ge. rewrite length_drop. lia. }
  rewrite Hsl in Hj, Hf. rewrite take_ge in Hj, Hc by lia.
  split; [done|]. split; [done|]. rewrite length_app, Hc. simpl. lia.
Qed.

Lemma join_lines_cons2 l x r :
  join_lines (l :: x :: r) = l ++ newline :: join_lines (x :: r).
Proof. done. Qed.

Lemma app_newline_inj l1 l2 s1 s2 :
  newline ∉ l1 -> newline ∉ l2 ->
  l1 ++ newline :: s1 = l2 ++ newline :: s2 -> l1 = l2 /\ s1 = s2.
Proof.
  revert l2. induction l1 as [|a l1 IH]; intros [|c l2] H1 H2 Heq; simpl in Heq.
  - by injection Heq.
  - injection Heq as Hc _. exfalso. apply H2. rewrite <- Hc. left.
  - injection Heq as Hc _. exfalso. apply H1. rewrite Hc. left.
  - injection Heq as -> Heq.
    destruct (IH l2 ltac:(set_solver) ltac:(set_solver) Heq) as [-> ->]. done.
Qed.

Lemma join_lines_inj ls1 ls2 :
  ls1 <> [] -> ls2 <> [] ->
  Forall (fun l => newline ∉ l) ls1 -> Forall (fun l => newline ∉ l) ls2 ->
  join_lines ls1 = join_lines ls2 -> ls1 = ls2.
Proof.
  revert ls2. induction ls1 as [|l1 r1 IH]; intros ls2 N1 N2 F1 F2 Heq; [done|].
  destruct ls2 as [|l2 r2]; [done|].
  apply Forall_cons in F1 as [F1 F1']. apply Forall_cons in F2 as [F2 F2'].
  destruct r1 as [|x1 r1], r2 as [|x2 r2].
  - simpl in Heq. rewrite !app_nil_r in Heq. by subst.
  - rewrite join_lines_cons2 in Heq. simpl in Heq. rewrite app_nil_r in Heq. subst.
    exfalso. apply F1. rewrite elem_of_app. right. left.
  - rewrite join_lines_cons2 in Heq. simpl in Heq. rewrite app_nil_r in Heq. subst.
    exfalso. apply F2. rewrite elem_of_app. right. left.
  - rewrite !join_lines_cons2 in Heq.
    destruct (app_newline_inj _ _ _ _ F1 F2 Heq) as [-> Hr].
    f_equal. by apply IH.
Qed.

(** *** loadGraph *)

Section LoaderProofs.

Context {File : Type} (ReadFile : File -> option (list Byte.byte)).
Context (ParseInt : list Byte.byte -> option Z).
Context (Sscanf : list Byte.byte -> nat * Z * Z * Q).
Context (allocates : Z -> bool).

Lemma load_loop ls n g :
  fold_left (load_step Sscanf) (zip (seq n (length ls)) ls) g =
  fold_left (fun g '(f, t, w) => AddEdge g f t w)
            (omap (line_edge Sscanf) (drop (2 - n) ls)) g.
Proof.
  revert n g. induction ls as [|l ls IH]; intros n g.
  - by rewrite drop_nil.
  - simpl. rewrite IH.
    case_decide as Hn.
    + replace (2 - n) with (S (1 - n)) by lia. simpl. done.
    + replace (2 - n) with 0 by lia. replace (2 - S n) with 0 by lia. simpl.
      unfold line_edge. case_decide; [done|].
      destruct (Sscanf l) as [[[k to] from] w]. case_decide; done.
Qed.

Lemma loadGraph_eq inputFile :
  loadGraph ReadFile ParseInt Sscanf allocates inputFile =
  match ReadFile inputFile with
  | None => None
  | Some b =>
      match ParseInt (default [] (head (split_lines b))) with
      | None => None
      | Some claim =>
          if decide (claim < 0 \/ maxAlloc < 8 * claim)%Z then None
          else if negb (allocates claim) then None
          else Some (build claim (omap (line_edge Sscanf) (drop 2 (split_lines b))))
      end
  end.
Proof.
  unfold loadGraph. destruct (ReadFile inputFile) as [b|]; [|done].
  destruct (split_lines b) as [|l0 ls] eqn:Hs.
  { pose proof (proj2 (proj2 (split_lines_spec b))) as Hl. rewrite Hs in Hl. done. }
  simpl. destruct (ParseInt l0) as [claim|]; [|done].
  case_decide; [done|]. destruct (allocates claim); [|done]. simpl. f_equal. unfold build.
  pose proof (load_loop (l0 :: ls) 0 (NewGraph claim)) as Hloop. simpl in Hloop. exact Hloop.
Qed.

End LoaderProofs.

Section MainProofs.

Context {File : Type} (ReadFile : File -> option (list Byte.byte)).
Context (ParseInt : list Byte.byte -> option Z).
Context (Sscanf : list Byte.byte -> nat * Z * Z * Q).
Context (allocates : Z -> bool).
Context (flagParse : list File -> option (Z * Z * list File)).
Context (NumCPU : Z).

Lemma main_solve_inv osArgs g maxCPU maxSeconds :
  main ReadFile ParseInt Sscanf allocates flagParse NumCPU osArgs = Solve g maxCPU maxSeconds ->
  exists inputFile cpuFlag,
    loadGraph ReadFile ParseInt Sscanf allocates inputFile = Some g /\
    maxCPU = (if decide (cpuFlag <= 0)%Z then NumCPU else cpuFlag).
Proof.
  unfold main. case_decide; [done|].
  destruct (flagParse (drop 1 osArgs)) as [[[c t] args]|]; [|done].
  destruct (args !! 0) as [f|]; [|done].
  destruct (loadGraph ReadFile ParseInt Sscanf allocates f) as [g'|] eqn:E; [|done].
  intros Hs. injection Hs as Hg Hc Ht. exists f, c. split; congruence.
Qed.

End MainProofs.

(** X16: the line splitting of [loadGraph] loses no byte: joining its
    lines with ['\n'] gives back the file contents, and no line contains
    ['\n']. *)
Theorem split_lines_join b :
  join_lines (split_lines b) = b /\ Forall (fun l => newline ∉ l) (split_lines b).
Proof.
  destruct (split_lines_spec b) as (Hj & Hf & _). done.
Qed.

(** X17: [split_lines] returns one line more than the file has ['\n']
    bytes, so it is never empty and [lines[0]] never goes out of range,
    even for an empty file. *)
Theorem split_lines_count b :
  length (split_lines b) = S (length (filter (fun c => c = newline) b)) /\
  is_Some (split_lines b !! 0).
Proof.
  destruct (split_lines_spec b) as (_ & _ & Hl). split; [done|].
  apply lookup_lt_is_Some_2. lia.
Qed.

(** X18: splitting undoes joining: a non-empty list of lines none of which
    contains ['\n'], joined with ['\n'], is split back into the same
    lines. *)
Theorem split_lines_of_join ls :
  ls <> [] -> Forall (fun l => newline ∉ l) ls -> split_lines (join_lines ls) = ls.
Proof.
  intros Hne Hf. destruct (split_lines_spec (join_lines ls)) as (Hj & Hf' & Hl).
  apply join_lines_inj; [|done|done|done|done].
  intros Hs. rewrite Hs in Hl. done.
Qed.

Lemma split_lines_of_join_witness :
  [Byte.x31; Byte.x32] <> [] /\
  Forall (fun l => newline ∉ l) [[Byte.x33]; []; [Byte.x31; Byte.x32]] /\
  split_lines (join_lines [[Byte.x33]; []; [Byte.x31; Byte.x32]]) =
    [[Byte.x33]; []; [Byte.x31; Byte.x32]].
Proof.
  split; [done|]. split.
  - repeat constructor; set_solver.
  - apply split_lines_of_join; [done|]. repeat constructor; set_solver.
Defined.

(** X19: [loadGraph] succeeds exactly when the file is read, its first line
    parses as an integer [claim], [NewGraph(claim)] passes the runtime's
    check ([0 <= claim] and [8 * claim <= maxAlloc]) and the machine has
    the memory it asks for; the graph is then [NewGraph]
    followed by [AddEdge(from, to, weight)] for every line from the third
    on that is non-empty and scans as three items, in file order.  The
    second line is never read, other lines are skipped silently, and a
    claim that differs from the number of nodes does not fail. *)
Theorem loadGraph_result {File : Type} (ReadFile : File -> option (list Byte.byte))
    ParseInt Sscanf allocates inputFile g :
  loadGraph ReadFile ParseInt Sscanf allocates inputFile = Some g <->
  exists b claim,
    ReadFile inputFile = Some b /\
    ParseInt (default [] (head (split_lines b))) = Some claim /\
    (0 <= claim)%Z /\ (8 * claim <= maxAlloc)%Z /\ allocates claim = true /\
    g = build claim (omap (line_edge Sscanf) (drop 2 (split_lines b))).
Proof.
  rewrite loadGraph_eq. split.
  - destruct (ReadFile inputFile) as [b|]; [|done].
    destruct (ParseInt _) as [claim|] eqn:Ep; [|done].
    case_decide as Hc; [done|]. destruct (allocates claim) eqn:Ea; [|done].
    intros Hg. injection Hg as <-.
    exists b, claim. split; [done|]. split; [done|]. split; [lia|].
    split; [unfold maxAlloc in *; lia|]. done.
  - intros (b & claim & -> & -> & H0 & H1 & Ea & ->).
    rewrite decide_False by (unfold maxAlloc in *; lia). by rewrite Ea.
Qed.

(** X20: when [main] calls [SolveTSP], the graph it passes is well formed
    (distinct nodes, symmetric weights, every node with a neighbour, every
    neighbour a node), and when [runtime.NumCPU()] is positive it asks for
    at least one worker, whatever the [-cpu] flag says. *)
Theorem main_solve_args {File : Type} (ReadFile : File -> option (list Byte.byte))
    ParseInt Sscanf allocates flagParse NumCPU osArgs g maxCPU maxSeconds :
  main ReadFile ParseInt Sscanf allocates flagParse NumCPU osArgs = Solve g maxCPU maxSeconds ->
  graph_wf g /\ ((1 <= NumCPU)%Z -> (1 <= Z.min NumCPU maxCPU)%Z).
Proof.
  intros Hm.
  destruct (main_solve_inv ReadFile ParseInt Sscanf allocates flagParse NumCPU osArgs g
              maxCPU maxSeconds Hm) as (f & c & Hl & ->).
  rewrite loadGraph_eq in Hl.
  destruct (ReadFile f) as [b|]; [|done].
  destruct (ParseInt _) as [claim|]; [|done].
  case_decide; [done|]. destruct (allocates _); [|done]. injection Hl as <-.
  split; [apply build_wf|]. intros Hn. case_decide; lia.
Qed.

Lemma main_solve_args_witness :
  main (fun _ : nat => Some demo_file) (fun _ => Some 2%Z)
       (fun _ => (3, 1%Z, 2%Z, 3%Q)) (fun _ => true) (fun a => Some ((-1)%Z, 59%Z, a))
       4%Z [0; 7] =
    Solve (build 2 [(2%Z, 1%Z, 3%Q)]) 4 59 /\
  graph_wf (build 2 [(2%Z, 1%Z, 3%Q)]) /\ ((1 <= 4)%Z -> (1 <= Z.min 4 4)%Z).
Proof.
  assert (H : main (fun _ : nat => Some demo_file) (fun _ => Some 2%Z)
       (fun _ => (3, 1%Z, 2%Z, 3%Q)) (fun _ => true) (fun a => Some ((-1)%Z, 59%Z, a))
       4%Z [0; 7] =
    Solve (build 2 [(2%Z, 1%Z, 3%Q)]) 4 59) by (vm_compute; reflexivity).
  split; [exact H|].
  exact (main_solve_args _ _ _ _ _ _ _ _ _ _ H).
Defined.

(** X21: [main] checks [len(os.Args) < 2] but then reads [flag.Args()[0]]:
    when every command-line argument is a flag there is no input file
    and [main] panics instead of printing its usage message. *)
Theorem main_flags_only_panics {File : Type} (ReadFile : File -> option (list Byte.byte))
    ParseInt Sscanf allocates flagParse NumCPU osArgs cpuFlag timeFlag :
  2 <= length osArgs ->
  flagParse (drop 1 osArgs) = Some (cpuFlag, timeFlag, []) ->
  main ReadFile ParseInt Sscanf allocates flagParse NumCPU osArgs = Exit.
Proof.
  intros Hl Hf. unfold main. rewrite decide_False by lia. by rewrite Hf.
Qed.

Lemma main_flags_only_panics_witness :
  2 <= length [0; 4] /\
  main (fun _ : nat => Some demo_file) (fun _ => Some 2%Z)
       (fun _ => (3, 1%Z, 2%Z, 3%Q)) (fun _ => true) (fun _ => Some (4%Z, 59%Z, []))
       8%Z [0; 4] = Exit.
Proof.
  split; [simpl; lia|].
  apply (main_flags_only_panics _ _ _ _ _ _ [0; 4] 4%Z 59%Z); [simpl; lia|reflexivity].
Defined.
